(** * NetDynFlow: metrics extracted from flow and communicability tensors

    A shallow embedding of [netdynflow/metrics.py]: the three reductions
    [TotalEvolution], [NodeEvolution] and [Diversity] over a rank-3 NumPy
    array of shape [nsteps x N x N].

    Layout of the development:
    - [Additive], [Dtype]: the element types an array can hold, with the
      arithmetic the reductions use (instances: [int64], IEEE-754
      binary64);
    - [sum_of], [Reduction]: what [np.add.reduce] promises about the value
      it returns, whatever the order in which it adds;
    - [ndarray]: an array value, a shape and its elements in row-major
      order, with the NumPy operations the module calls ([sum] along an
      axis, [.T], [a[t]], [mean], [std]);
    - a store of array objects and a state-and-error monad, in which the
      three functions are written statement by statement;
    - the properties of the three functions. *)

From Stdlib Require Import ZArith Zmod SpecFloat.
From stdpp Require Import gmap list strings.

(** ** Element types *)

(** What [ndarray.sum] needs of the element type. *)
Class Additive (R : Type) := {
  sc_zero : R;
  sc_add : R → R → R;
}.

(** What [ndarray.mean] and [ndarray.std] need on top of that. *)
Class Dtype (R : Type) := {
  dtype_additive :: Additive R;
  sc_sub : R → R → R;
  sc_mul : R → R → R;
  sc_div : R → R → R;
  sc_sqrt : R → R;
  sc_of_nat : nat → R;
}.

(** Exact arithmetic: addition is associative and commutative and [sc_zero]
    is its unit.  Floating-point addition is not associative. *)
Class ExactSum (R : Type) `{Additive R} := {
  sc_add_assoc : ∀ x y z : R, sc_add x (sc_add y z) = sc_add (sc_add x y) z;
  sc_add_comm : ∀ x y : R, sc_add x y = sc_add y x;
  sc_add_zero_l : ∀ x : R, sc_add sc_zero x = x;
}.

(** [int64] arrays: the integers modulo [2^64]; addition wraps around.
    ([sum] only: NumPy computes [mean] and [std] of an integer array in
    [float64].) *)
Definition int64 : Type := Zmod (2 ^ 64).

(** The [int64] an integer wraps to. *)
Definition i64 (z : Z) : int64 := Zmod.of_Z (2 ^ 64) z.

#[global] Instance int64_additive : Additive int64 :=
  {| sc_zero := i64 0; sc_add := Zmod.add |}.

(** [float64] arrays: IEEE-754 binary64, round to nearest even, as the
    Standard Library specifies it ([prec = 53], [emax = 1024]). *)
Definition float64 : Type := spec_float.

(** The [float64] nearest to an integer. *)
Definition f64_of_Z (z : Z) : float64 := binary_normalize 53 1024 z 0 false.

#[global] Instance float64_dtype : Dtype float64 := {|
  dtype_additive := {| sc_zero := S754_zero false; sc_add := SFadd 53 1024 |};
  sc_sub := SFsub 53 1024;
  sc_mul := SFmul 53 1024;
  sc_div := SFdiv 53 1024;
  sc_sqrt := SFsqrt 53 1024;
  sc_of_nat := λ n, f64_of_Z (Z.of_nat n);
|}.

(** ** What a reduction returns *)

(** [sum_of l x]: [x] is a sum of the elements of [l], each taken once, in
    some order and with some grouping; zeros may be added on the way.  In
    exact arithmetic there is one such [x]; in floating point the value
    depends on the order and the grouping. *)
Inductive sum_of {R : Type} `{!Additive R} : list R → R → Prop :=
  | sum_of_nil : sum_of [] sc_zero
  | sum_of_one x : sum_of [x] x
  | sum_of_add l1 l2 x y :
      sum_of l1 x → sum_of l2 y → sum_of (l1 ++ l2) (sc_add x y)
  | sum_of_perm l l' x : l ≡ₚ l' → sum_of l x → sum_of l' x.

(** Which reduction of the module a call of [np.add.reduce] serves. *)
Inductive reduce_call :=
  | SumAxis (k : nat)
  | SumAll
  | SumSquares.

(** What NumPy sees of a reduction besides the elements: the shape and the
    strides (in elements) of the array whose method is called, the call,
    and the position of the result in the output.  (The temporaries of
    [std] are laid out after the array [std] is called on.) *)
Record reduce_ctx := ReduceCtx {
  ctx_shape : list nat;
  ctx_strides : list nat;
  ctx_call : reduce_call;
  ctx_pos : nat;
}.

(** [np.add.reduce] over a run of elements.  The order in which NumPy adds
    them is its own business: it follows the memory layout, and a long
    contiguous run is added in blocks of partial sums, not from first to
    last.  So is the layout of the array a reduction along an axis returns:
    NumPy orders the axes of the result as the strides of the array reduced
    order them.  The embedding takes both as parameters and relies on two
    facts only: an empty run reduces to zero, and the result is a sum of the
    elements of the run. *)
Class Reduction (R : Type) `{!Additive R} := {
  np_add_reduce : reduce_ctx → list R → R;
  np_result_strides : list nat → list nat → nat → list nat;
  np_add_reduce_nil : ∀ c, np_add_reduce c [] = sc_zero;
  np_add_reduce_sum : ∀ c l, sum_of l (np_add_reduce c l);
}.

(** ** Tables: row-major buffers built from an index function *)

(** [m] rows of [n] elements, element [(i, j)] being [f i j]. *)
Definition table {A : Type} (m n : nat) (f : nat → nat → A) : list A :=
  i ← seq 0 m; (f i <$> seq 0 n).

(** ** Array values *)

(** An [ndarray] as NumPy presents it: a shape and the elements in row-major
    index order.  Where the elements lie in memory is not part of the value;
    it is kept with the array object ([strides] below). *)
Record ndarray (R : Type) := NdArray {
  shape : list nat;
  data : list R;
}.
Arguments NdArray {R} _ _.
Arguments shape {R} _.
Arguments data {R} _.

(** Number of elements of an array of shape [s] ([ndarray.size]). *)
Definition nelems (s : list nat) : nat := foldr Nat.mul 1 s.
Arguments nelems : simpl never.

(** The buffer holds as many elements as the shape says. *)
Definition wf {R} (a : ndarray R) : Prop := length (data a) = nelems (shape a).

(** Flat offset of the multi-index [idx] in an array of shape [s]. *)
Definition ravel (s idx : list nat) : nat :=
  foldl (λ acc ni, acc * ni.1 + ni.2) 0 (zip s idx).

(** Multi-index of the flat offset [k] in an array of shape [s]. *)
Fixpoint unravel (s : list nat) (k : nat) : list nat :=
  match s with
  | [] => []
  | _ :: s' => k / nelems s' :: unravel s' (k mod nelems s')
  end.

(** The strides of a C-contiguous array of shape [s]. *)
Fixpoint c_strides (s : list nat) : list nat :=
  match s with
  | [] => []
  | _ :: s' => nelems s' :: c_strides s'
  end.

Section Arrays.
Context {R : Type} `{!Additive R}.

(** Element [k] of a buffer. *)
Definition item (l : list R) (k : nat) : R := default sc_zero (l !! k).

(** Element of [a] at a multi-index: [a[t, i, j]] is [get a [t; i; j]]. *)
Definition get (a : ndarray R) (idx : list nat) : R :=
  item (data a) (ravel (shape a) idx).

(** Python's built-in [sum]: the elements are added from first to last,
    starting from [0]. *)
Definition py_sum (l : list R) : R := foldl sc_add sc_zero l.

(** [a.T]: the axes are reversed. *)
Definition transpose (a : ndarray R) : ndarray R :=
  let s := shape a in
  NdArray (reverse s)
    ((λ k, item (data a) (ravel s (reverse (unravel (reverse s) k))))
       <$> seq 0 (nelems (reverse s))).

(** [a[t]] for an integer [t ≥ 0]: the [t]-th sub-array along the first
    axis; [None] is NumPy's [IndexError]. *)
Definition getitem (a : ndarray R) (t : nat) : option (ndarray R) :=
  match shape a with
  | [] => None
  | n :: s' =>
      if decide (t < n)
      then Some (NdArray s' (take (nelems s') (drop (t * nelems s') (data a))))
      else None
  end.

(** [np.zeros(n)]. *)
Definition zeros (n : nat) : ndarray R := NdArray [n] (replicate n sc_zero).

(** [a[t] = x] on a one-dimensional array; [None] is [IndexError]. *)
Definition setitem (a : ndarray R) (t : nat) (x : R) : option (ndarray R) :=
  match shape a with
  | [n] => if decide (t < n) then Some (NdArray [n] (<[t:=x]> (data a))) else None
  | _ => None
  end.
End Arrays.

Section Reductions.
Context {R : Type} `{!Additive R} `{!Reduction R}.

(** [a.sum(axis=k)] on an array whose strides are [st]: the axis [k], of
    extent [n], is summed away.  With [outer] the number of index
    combinations before the axis and [inner] after it, element [(o, r)] of
    the result is [np.add.reduce] of the elements [(o, i, r)] of [a],
    [i < n].  An axis beyond the rank is NumPy's [AxisError], here
    [None]. *)
Definition sum_axis (st : list nat) (k : nat) (a : ndarray R) :
    option (ndarray R) :=
  n ← shape a !! k;
  let outer := nelems (take k (shape a)) in
  let inner := nelems (drop (S k) (shape a)) in
  Some (NdArray (take k (shape a) ++ drop (S k) (shape a))
          (table outer inner (λ o r,
             np_add_reduce (ReduceCtx (shape a) st (SumAxis k) (o * inner + r))
               ((λ i, item (data a) ((o * n + i) * inner + r)) <$> seq 0 n)))).
End Reductions.

Section Statistics.
Context {R : Type} `{!Dtype R} `{!Reduction R}.

(** [a.mean()] on an array whose strides are [st]: [np.add.reduce] of all
    the elements, divided by their number. *)
Definition mean (st : list nat) (a : ndarray R) : R :=
  sc_div (np_add_reduce (ReduceCtx (shape a) st SumAll 0) (data a))
         (sc_of_nat (nelems (shape a))).

(** [a.var(ddof)]: the squared deviations from the mean are reduced and
    divided by [max(size - ddof, 0)]. *)
Definition var (st : list nat) (ddof : nat) (a : ndarray R) : R :=
  let arrmean := mean st a in
  let x := (λ v, sc_sub v arrmean) <$> data a in
  let x2 := (λ d, sc_mul d d) <$> x in
  sc_div (np_add_reduce (ReduceCtx (shape a) st SumSquares 0) x2)
         (sc_of_nat (nelems (shape a) - ddof)).

(** [a.std(ddof)]; NumPy's default is [ddof = 0]. *)
Definition std (st : list nat) (ddof : nat) (a : ndarray R) : R :=
  sc_sqrt (var st ddof a).
End Statistics.

(** ** Array objects, views and the store *)

(** Python names refer to array objects.  An object either owns its buffer
    ([Base]) or is a view of another object: [a.T] and [a[t]] share the
    storage of [a]. *)
Inductive aref :=
  | Base (l : positive)
  | ViewT (b : aref)
  | ViewItem (b : aref) (t : nat).

(** The object whose buffer a reference reads and writes. *)
Fixpoint base (r : aref) : positive :=
  match r with
  | Base l => l
  | ViewT b => base b
  | ViewItem b _ => base b
  end.

(** An array object that owns its buffer: the value it presents, and the
    strides (in elements) that say where the elements lie in the buffer. *)
Record object (R : Type) := Object {
  obj_value : ndarray R;
  obj_strides : list nat;
}.
Arguments Object {R} _ _.
Arguments obj_value {R} _.
Arguments obj_strides {R} _.

(** The store: the objects that are alive. *)
Abbreviation store R := (gmap positive (object R)).

(** Exceptions.  [Dangling] has no counterpart in Python, where a name keeps
    its object alive; it is what a reference outside the store evaluates
    to. *)
Inductive exn :=
  | AssertionError (msg : string)
  | ValueError
  | AxisError
  | IndexError
  | Dangling.

Inductive result (A : Type) :=
  | Ok (a : A)
  | Raise (e : exn).
Arguments Ok {A} _.
Arguments Raise {A} _.

(** Computations: they read and extend the store, or raise. *)
Definition M (R A : Type) : Type := store R → result (A * store R).

#[global] Instance M_ret R : MRet (M R) := λ A x σ, Ok (x, σ).
#[global] Instance M_bind R : MBind (M R) := λ A B f m σ,
  match m σ with
  | Ok (x, σ') => f x σ'
  | Raise e => Raise e
  end.

Definition raise {R A} (e : exn) : M R A := λ _, Raise e.

(** [assert b, msg]. *)
Definition assert {R} (b : bool) (msg : string) : M R () :=
  if b then mret () else raise (AssertionError msg).

(** [for x in l: body(x)]. *)
Fixpoint for_each {R A} (l : list A) (body : A → M R ()) : M R () :=
  match l with
  | [] => mret ()
  | x :: l' => body x;; for_each l' body
  end.

Section Store.
Context {R : Type} `{!Additive R}.

(** The value a reference denotes. *)
Fixpoint read (σ : store R) (r : aref) : option (ndarray R) :=
  match r with
  | Base l => obj_value <$> σ !! l
  | ViewT b => transpose <$> read σ b
  | ViewItem b t => read σ b ≫= λ v, getitem v t
  end.

(** The strides of the array a reference denotes: [a.T] has the strides of
    [a] reversed and [a[t]] those of [a] without the first. *)
Fixpoint strides (σ : store R) (r : aref) : list nat :=
  match r with
  | Base l => from_option obj_strides [] (σ !! l)
  | ViewT b => reverse (strides σ b)
  | ViewItem b _ => tail (strides σ b)
  end.

(** [v] with its [t]-th sub-array replaced by the elements of [w]. *)
Definition setslice (v : ndarray R) (t : nat) (w : ndarray R) : ndarray R :=
  let sz := nelems (tail (shape v)) in
  NdArray (shape v)
    (take (t * sz) (data v) ++ take sz (data w) ++ drop (S t * sz) (data v)).

(** Writing the value [w] through a reference updates the buffer of its
    base, in place. *)
Fixpoint writeback (σ : store R) (r : aref) (w : ndarray R) : option (store R) :=
  match r with
  | Base l => o ← σ !! l; Some (<[l:=Object w (obj_strides o)]> σ)
  | ViewT b => writeback σ b (transpose w)
  | ViewItem b t => read σ b ≫= λ v, writeback σ b (setslice v t w)
  end.

Definition load (r : aref) : M R (ndarray R) := λ σ,
  match read σ r with
  | Some v => Ok (v, σ)
  | None => Raise Dangling
  end.

(** The strides of a live array. *)
Definition load_strides (r : aref) : M R (list nat) := λ σ, Ok (strides σ r, σ).

(** A new array object, at an address no live object has. *)
Definition alloc (v : ndarray R) (st : list nat) : M R aref := λ σ,
  let l := fresh (dom σ) in Ok (Base l, <[l:=Object v st]> σ).

(** [np.shape(a)]. *)
Definition np_shape (r : aref) : M R (list nat) :=
  v ← load r; mret (shape v).

(** [a.T]: a view. *)
Definition ndarray_T (r : aref) : M R aref := mret (ViewT r).

(** [a[t]]: a view. *)
Definition ndarray_getitem (r : aref) (t : nat) : M R aref :=
  v ← load r;
  match getitem v t with
  | Some _ => mret (ViewItem r t)
  | None => raise IndexError
  end.

(** [np.zeros(n, np.float)]: a new, C-contiguous array. *)
Definition np_zeros (n : nat) : M R aref := alloc (zeros n) (c_strides [n]).

(** The buffer behind [r] takes the value [w], in place. *)
Definition update (r : aref) (w : ndarray R) : M R () := λ σ,
  match writeback σ r w with
  | Some σ' => Ok ((), σ')
  | None => Raise Dangling
  end.

(** [a[t] = x]. *)
Definition ndarray_setitem (r : aref) (t : nat) (x : R) : M R () :=
  v ← load r;
  match setitem v t x with
  | Some w => update r w
  | None => raise IndexError
  end.
End Store.

Section StoreReductions.
Context {R : Type} `{!Additive R} `{!Reduction R}.

(** [a.sum(axis=k)]: the result is a new array, laid out as NumPy
    chooses. *)
Definition ndarray_sum (r : aref) (k : nat) : M R aref :=
  v ← load r;
  st ← load_strides r;
  match sum_axis st k v with
  | Some w => alloc w (np_result_strides (shape v) st k)
  | None => raise AxisError
  end.
End StoreReductions.

Section StoreStatistics.
Context {R : Type} `{!Dtype R} `{!Reduction R}.

(** [a.std()], with NumPy's default [ddof = 0]. *)
Definition ndarray_std (r : aref) : M R R :=
  v ← load r; st ← load_strides r; mret (std st 0 v).

(** [a.mean()]. *)
Definition ndarray_mean (r : aref) : M R R :=
  v ← load r; st ← load_strides r; mret (mean st v).
End StoreStatistics.

(** ** The metrics of [netdynflow/metrics.py] *)

Definition msg_rank : string := "Input not aligned. Tensor of rank-3 expected".
Definition msg_square : string := "Input not aligned. Shape (nsteps x N x N) expected".

Section Checks.
Context {R : Type} `{!Additive R}.

(** The security checks that open each function:
    [tensorshape = np.shape(dyntensor)],
    [assert len(tensorshape) == 3],
    [nsteps, N1, N2 = tensorshape],
    [assert N1 == N2].  Unpacking anything but three values is a
    [ValueError]. *)
Definition security_checks (dyntensor : aref) : M R (nat * nat * nat) :=
  tensorshape ← np_shape dyntensor;
  assert (bool_decide (length tensorshape = 3)) msg_rank;;
  match tensorshape with
  | [nsteps; N1; N2] =>
      assert (bool_decide (N1 = N2)) msg_square;;
      mret (nsteps, N1, N2)
  | _ => raise ValueError
  end.
End Checks.

Section Metrics.
Context {R : Type} `{!Additive R} `{!Reduction R}.

Definition TotalEvolution (dyntensor : aref) : M R aref :=
  security_checks dyntensor;;
  s ← ndarray_sum dyntensor 1;
  totaldyncom ← ndarray_sum s 1;
  mret totaldyncom.

Definition NodeEvolution (dyntensor : aref) (directed : bool) : M R (aref * aref) :=
  security_checks dyntensor;;
  s1 ← ndarray_sum dyntensor 1;
  innodedyn ← ndarray_T s1;
  s2 ← ndarray_sum dyntensor 2;
  outnodedyn ← ndarray_T s2;
  let nodedyn := (innodedyn, outnodedyn) in
  mret nodedyn.
End Metrics.

Section Diversity.
Context {R : Type} `{!Dtype R} `{!Reduction R}.

Definition Diversity (dyntensor : aref) : M R aref :=
  '(nsteps, _, _) ← security_checks dyntensor;
  diversity ← np_zeros nsteps;
  for_each (seq 0 nsteps) (λ t,
    slice1 ← ndarray_getitem dyntensor t;
    sd ← ndarray_std slice1;
    slice2 ← ndarray_getitem dyntensor t;
    mu ← ndarray_mean slice2;
    ndarray_setitem diversity t (sc_div sd mu));;
  mret diversity.
End Diversity.

(** ** What a call returns *)

Section Returned.
Context {R : Type} `{!Additive R}.

(** The array a call returns, read from the store the call leaves. *)
Definition returned (x : result (aref * store R)) : option (ndarray R) :=
  match x with
  | Ok (r, σ') => read σ' r
  | Raise _ => None
  end.

(** The pair of arrays a call returns. *)
Definition returned2 (x : result ((aref * aref) * store R)) :
    option (ndarray R * ndarray R) :=
  match x with
  | Ok ((r1, r2), σ') => v1 ← read σ' r1; v2 ← read σ' r2; Some (v1, v2)
  | Raise _ => None
  end.

(** The slice of a rank-three array at time [t], entry by entry. *)
Definition slice (v : ndarray R) (N : nat) (t : nat) : ndarray R :=
  NdArray [N; N] (table N N (λ i j, get v [t; i; j])).

(** Python's [sum(x[:, t])] for an [N x T] array: the entries of column
    [t], one per node, added from first to last. *)
Definition node_mass (x : ndarray R) (N t : nat) : R :=
  py_sum ((λ i, get x [i; t]) <$> seq 0 N).

(** The shapes the security checks refuse: the rank is not three, or the
    last two dimensions differ. *)
Definition misaligned (s : list nat) : Prop :=
  length s ≠ 3 ∨ s !! 1 ≠ s !! 2.

(** A call that only reads what was there: every object alive before the
    call is as it was, the result [res] lives in a buffer that did not exist
    before, and no write through [res] reaches the argument [r]. *)
Definition reads_only (σ σ' : store R) (r res : aref) : Prop :=
  (∀ l, l ∈ dom σ → σ' !! l = σ !! l) ∧
  read σ' r = read σ r ∧
  (base res ∉ dom σ) ∧
  (∀ w σ'', writeback σ' res w = Some σ'' → read σ'' r = read σ r).
End Returned.

Section MassBalance.
Context {R : Type} `{!Additive R} `{!Reduction R}.

(** Input mass, output mass and total mass agree at every time step. *)
Definition mass_balance (σ : store R) (r : aref) (T N : nat) : Prop :=
  ∃ ins outs tot,
    returned2 (NodeEvolution r false σ) = Some (ins, outs) ∧
    returned (TotalEvolution r σ) = Some tot ∧
    ∀ t, t < T →
      node_mass ins N t = node_mass outs N t ∧ node_mass outs N t = get tot [t].
End MassBalance.

(** ** The arrays the functions compute on a [T x N x N] tensor *)

Section Computed.
Context {R : Type} `{!Additive R} `{!Reduction R}.

(** [dyntensor.sum(axis=1)] on a tensor [v] whose strides are [st]. *)
Definition column_sums (st : list nat) (v : ndarray R) (T N : nat) : ndarray R :=
  NdArray [T; N] (table T N (λ t j,
    np_add_reduce (ReduceCtx [T; N; N] st (SumAxis 1) (t * N + j))
      ((λ i, get v [t; i; j]) <$> seq 0 N))).

(** [dyntensor.sum(axis=2)]. *)
Definition row_sums (st : list nat) (v : ndarray R) (T N : nat) : ndarray R :=
  NdArray [T; N] (table T N (λ t i,
    np_add_reduce (ReduceCtx [T; N; N] st (SumAxis 2) (t * N + i))
      ((λ j, get v [t; i; j]) <$> seq 0 N))).

(** [w.sum(axis=1)] on a [T x N] array [w] whose strides are [st]. *)
Definition totals (st : list nat) (w : ndarray R) (T N : nat) : ndarray R :=
  NdArray [T] ((λ t,
    np_add_reduce (ReduceCtx [T; N] st (SumAxis 1) t)
      ((λ j, get w [t; j]) <$> seq 0 N)) <$> seq 0 T).
End Computed.

(** ** Additions without rounding *)

(** The sum of [f 0], ..., [f (n - 1)], in the integers. *)
Definition Zsum (n : nat) (f : nat → Z) : Z := foldr Z.add 0%Z (f <$> seq 0 n).

(** [φ] carries the integers of magnitude at most [B] into the element type
    and turns their addition into the addition of the element type: on
    these values nothing is rounded and nothing wraps. *)
Definition adds_exactly {R} `{!Additive R} (φ : Z → R) (B : Z) : Prop :=
  φ 0%Z = sc_zero ∧
  ∀ a b : Z, (Z.abs a ≤ B)%Z → (Z.abs b ≤ B)%Z → (Z.abs (a + b) ≤ B)%Z →
    sc_add (φ a) (φ b) = φ (a + b)%Z.

#[global] Instance spec_float_eq_dec : EqDecision spec_float.
Proof. solve_decision. Defined.

(** [float64] adds the integers [a] and [b] without rounding. *)
Definition f64_add_exact (a b : Z) : bool :=
  bool_decide (SFadd 53 1024 (f64_of_Z a) (f64_of_Z b) = f64_of_Z (a + b)).

(** The integers from [-B] to [B]. *)
Definition Zrange (B : Z) : list Z :=
  (λ k, (Z.of_nat k - B)%Z) <$> seq 0 (Z.to_nat (2 * B + 1)).

(** ** The statistics in the words of the specification *)

Section SpecStatistics.
Context {R : Type} `{!Dtype R}.


End SpecStatistics.

Section Ratio.
Context {R : Type} `{!Dtype R} `{!Reduction R}.

(** The value [Diversity] stores at time [t]: the ratio for the slice [m],
    whose strides are [st]. *)
Definition ratio (st : list nat) (m : ndarray R) : R :=
  sc_div (std st 0 m) (mean st m).
End Ratio.

(** ** Sample tensors *)

(** Two time steps of a two-node network: the slice [[1, 2], [3, 4]]
    followed by a slice of zeros. *)
Definition tensorI : ndarray int64 :=
  NdArray [2; 2; 2] (i64 <$> [1; 2; 3; 4; 0; 0; 0; 0]%Z).

(** The same tensor with [float64] entries. *)
Definition tensorF : ndarray float64 :=
  NdArray [2; 2; 2] (f64_of_Z <$> [1; 2; 3; 4; 0; 0; 0; 0]%Z).

(** One time step whose slice is [[2^53, -2^53], [1, 1]]: adding [1] to
    [2^53] is rounded away. *)
Definition tensorC : ndarray float64 :=
  NdArray [1; 2; 2] (f64_of_Z <$> [9007199254740992; -9007199254740992; 1; 1]%Z).

(** A matrix, where a tensor is expected. *)
Definition matrixF : ndarray float64 :=
  NdArray [2; 2] (f64_of_Z <$> [1; 2; 3; 4]%Z).

(** No time step, three nodes. *)
Definition no_steps : ndarray float64 := NdArray [0; 3; 3] [].

(** Three time steps, no node. *)
Definition no_nodes : ndarray int64 := NdArray [3; 0; 0] [].

(** One time step, the slice [[1, 2], [3, 4]]. *)
Definition stepI : ndarray int64 := NdArray [1; 2; 2] (i64 <$> [1; 2; 3; 4]%Z).

(** [stepI] with its slice transposed: [[1, 3], [2, 4]]. *)
Definition stepI_T : ndarray int64 := NdArray [1; 2; 2] (i64 <$> [1; 3; 2; 4]%Z).

(** One time step of an undirected network: the slice [[1, 5], [5, 2]]. *)
Definition symmetricI : ndarray int64 := NdArray [1; 2; 2] (i64 <$> [1; 5; 5; 2]%Z).

(** Three time steps, no node, [float64]. *)
Definition no_nodesF : ndarray float64 := NdArray [3; 0; 0] [].

(** The integers behind the entries of [tensorF]. *)
Definition tensorF_integers (t i j : nat) : Z :=
  default 0%Z ([1; 2; 3; 4; 0; 0; 0; 0]%Z !! ((t * 2 + i) * 2 + j)).

(** A store holding one tensor, C-contiguous, at address [1]. *)
Definition store_of {R} (v : ndarray R) : store R :=
  {[ 1%positive := Object v (c_strides (shape v)) ]}.

(** * Properties *)

(** ** Tables *)

Section Table.
Context {A : Type}.

Lemma table_from_length (f : nat → nat → A) n m s :
  length (i ← seq s m; (f i <$> seq 0 n)) = m * n.
Proof.
  revert s. induction m as [|m IH]; intros s; simpl; [done|].
  rewrite length_app, length_fmap, length_seq, IH. done.
Qed.

Lemma table_length m n (f : nat → nat → A) : length (table m n f) = m * n.
Proof. apply table_from_length. Qed.

Lemma table_from_lookup (f : nat → nat → A) n m s i j :
  i < m → j < n →
  (k ← seq s m; (f k <$> seq 0 n)) !! (i * n + j) = Some (f (s + i) j).
Proof.
  revert s i. induction m as [|m IH]; intros s i Hi Hj; [lia|].
  simpl. destruct i as [|i].
  - rewrite lookup_app_l by (rewrite length_fmap, length_seq; lia).
    rewrite list_lookup_fmap, lookup_seq_lt by lia.
    simpl. by rewrite Nat.add_0_r.
  - rewrite lookup_app_r by (rewrite length_fmap, length_seq; lia).
    rewrite length_fmap, length_seq.
    replace (S i * n + j - n) with (i * n + j) by lia.
    rewrite IH by lia. f_equal. f_equal. lia.
Qed.

Lemma table_lookup m n (f : nat → nat → A) i j :
  i < m → j < n → table m n f !! (i * n + j) = Some (f i j).
Proof. intros. unfold table. by rewrite table_from_lookup. Qed.

Lemma table_ext m n (f g : nat → nat → A) :
  (∀ i j, i < m → j < n → f i j = g i j) → table m n f = table m n g.
Proof.
  intros Hfg. apply (list_eq_same_length _ _ (m * n)); try apply table_length.
  intros k x y Hk Hx Hy.
  assert (n ≠ 0) as Hn by (intros ->; lia).
  pose proof (Nat.div_mod_eq k n) as Hdm.
  pose proof (Nat.mod_upper_bound k n Hn) as Hmod.
  assert (k / n < m) as Hdiv by (apply Nat.Div0.div_lt_upper_bound; lia).
  replace k with (k / n * n + k mod n) in Hx, Hy by lia.
  rewrite table_lookup in Hx, Hy by done.
  simplify_eq. by apply Hfg.
Qed.

(** A buffer of [m * n] elements read as [m] rows of [n]. *)
Lemma fmap_seq_table m n (h : nat → A) :
  h <$> seq 0 (m * n) = table m n (λ i j, h (i * n + j)).
Proof.
  apply (list_eq_same_length _ _ (m * n)).
  - apply table_length.
  - by rewrite length_fmap, length_seq.
  - intros k x y Hk Hx Hy.
    assert (n ≠ 0) as Hn by (intros ->; lia).
    pose proof (Nat.div_mod_eq k n) as Hdm.
    pose proof (Nat.mod_upper_bound k n Hn) as Hmod.
    assert (k / n < m) as Hdiv by (apply Nat.Div0.div_lt_upper_bound; lia).
    rewrite list_lookup_fmap, lookup_seq_lt in Hx by done. simpl in Hx.
    replace k with (k / n * n + k mod n) in Hy at 1 by lia.
    rewrite table_lookup in Hy by done.
    simplify_eq. f_equal. lia.
Qed.

(** Rows of one element. *)
Lemma table_1_r m (f : nat → nat → A) : table m 1 f = (λ i, f i 0) <$> seq 0 m.
Proof.
  unfold table.
  enough (∀ s, (i ← seq s m; (f i <$> seq 0 1)) = (λ i, f i 0) <$> seq s m) by done.
  induction m as [|m IH]; intros s; simpl; [done|]. by rewrite IH.
Qed.

Lemma table_0_l n (f : nat → nat → A) : table 0 n f = [].
Proof. done. Qed.

Lemma table_0_r m (f : nat → nat → A) : table m 0 f = [].
Proof.
  apply length_zero_iff_nil. rewrite table_length. lia.
Qed.
End Table.

(** ** Sums *)

Section SumOf.
Context {R : Type} `{!Additive R}.

Lemma py_sum_snoc (l : list R) x : py_sum (l ++ [x]) = sc_add (py_sum l) x.
Proof. unfold py_sum. by rewrite foldl_app. Qed.

(** Adding from first to last is one way of summing. *)
Lemma sum_of_py_sum (l : list R) : sum_of l (py_sum l).
Proof.
  induction l as [|x l IH] using rev_ind; [constructor|].
  rewrite py_sum_snoc. apply sum_of_add; [done|constructor].
Qed.

(** A sum of sums of lists is a sum of all their elements. *)
Lemma Forall2_perm_r {A B} (P : A → B → Prop) (l l' : list B) :
  l ≡ₚ l' → ∀ ls', Forall2 P ls' l' → ∃ ls, ls ≡ₚ ls' ∧ Forall2 P ls l.
Proof.
  induction 1 as [|y l l' Hp IH|y z l|l l' l'' Hp1 IH1 Hp2 IH2]; intros ls' Hf.
  - apply Forall2_nil_inv_r in Hf as ->. by exists [].
  - apply Forall2_cons_inv_r in Hf as (a & ls0 & Ha & Hf & ->).
    destruct (IH _ Hf) as (ls & Hls & Hf'). exists (a :: ls).
    split; [by constructor|by constructor].
  - apply Forall2_cons_inv_r in Hf as (a & ls0 & Ha & Hf & ->).
    apply Forall2_cons_inv_r in Hf as (b & ls1 & Hb & Hf & ->).
    exists (b :: a :: ls1). split; [apply perm_swap|by repeat constructor].
  - destruct (IH2 _ Hf) as (ls1 & Hls1 & Hf1).
    destruct (IH1 _ Hf1) as (ls & Hls & Hf2).
    exists ls. split; [by etrans|done].
Qed.

Lemma concat_perm {A} (ls ls' : list (list A)) :
  ls ≡ₚ ls' → concat ls ≡ₚ concat ls'.
Proof.
  induction 1 as [|l ls ls' _ IH|l1 l2 ls|ls ls' ls'' _ IH1 _ IH2]; simpl.
  - done.
  - by rewrite IH.
  - rewrite !(assoc_L (++)). f_equiv. apply Permutation_app_comm.
  - by etrans.
Qed.

Lemma sum_of_concat (cs : list R) x :
  sum_of cs x → ∀ ls, Forall2 sum_of ls cs → sum_of (concat ls) x.
Proof.
  induction 1 as [|c|cs1 cs2 x y _ IH1 _ IH2|cs cs' x Hp _ IH]; intros ls Hf.
  - apply Forall2_nil_inv_r in Hf as ->. constructor.
  - apply Forall2_cons_inv_r in Hf as (l & ls0 & Hl & Hf & ->).
    apply Forall2_nil_inv_r in Hf as ->. simpl. by rewrite app_nil_r.
  - apply Forall2_app_inv_r in Hf as (ls1 & ls2 & Hf1 & Hf2 & ->).
    rewrite concat_app. apply sum_of_add; eauto.
  - destruct (Forall2_perm_r _ _ _ Hp _ Hf) as (ls0 & Hls & Hf0).
    apply (sum_of_perm (concat ls0)); [|by apply IH].
    by apply concat_perm.
Qed.
End SumOf.

(** One reduction that keeps the contract: the elements are added from first
    to last, and the result of a reduction along an axis is C-contiguous.
    For runs of fewer than eight elements of a C-contiguous array this is
    the order NumPy adds in. *)
Definition index_order (R : Type) `{!Additive R} : Reduction R := {|
  np_add_reduce := λ _ l, py_sum l;
  np_result_strides := λ s _ k, c_strides (take k s ++ drop (S k) s);
  np_add_reduce_nil := λ _, eq_refl;
  np_add_reduce_sum := λ _ l, sum_of_py_sum l;
|}.

#[global] Instance index_order_int64 : Reduction int64 := index_order int64.
#[global] Instance index_order_float64 : Reduction float64 := index_order float64.

(** Addition modulo [2^64] is exact. *)
#[global] Instance int64_exact : ExactSum int64.
Proof.
  split.
  - apply Zmod.add_assoc.
  - apply Zmod.add_comm.
  - apply Zmod.add_0_l.
Qed.

Section Exact.
Context {R : Type} `{!Additive R} `{!ExactSum R}.

Lemma sc_add_zero_r (x : R) : sc_add x sc_zero = x.
Proof. by rewrite sc_add_comm, sc_add_zero_l. Qed.

Lemma py_sum_app (l1 l2 : list R) :
  py_sum (l1 ++ l2) = sc_add (py_sum l1) (py_sum l2).
Proof.
  induction l2 as [|x l2 IH] using rev_ind.
  - by rewrite app_nil_r, sc_add_zero_r.
  - rewrite assoc by apply _. by rewrite !py_sum_snoc, IH, sc_add_assoc.
Qed.

Lemma py_sum_cons (x : R) l : py_sum (x :: l) = sc_add x (py_sum l).
Proof.
  change (x :: l) with ([x] ++ l). rewrite py_sum_app. f_equal.
  unfold py_sum. simpl. apply sc_add_zero_l.
Qed.

Lemma py_sum_perm (l l' : list R) : l ≡ₚ l' → py_sum l = py_sum l'.
Proof.
  induction 1 as [|x l l' _ IH|x y l|l l' l'' _ IH1 _ IH2].
  - done.
  - by rewrite !py_sum_cons, IH.
  - rewrite !py_sum_cons, !sc_add_assoc. f_equal. apply sc_add_comm.
  - by etrans.
Qed.

(** In exact arithmetic a list has one sum: the one found by adding from
    first to last. *)
Lemma sum_of_exact (l : list R) x : sum_of l x → x = py_sum l.
Proof.
  induction 1 as [|x|l1 l2 x y _ IH1 _ IH2|l l' x Hp _ IH].
  - done.
  - unfold py_sum. simpl. by rewrite sc_add_zero_l.
  - by rewrite py_sum_app, IH1, IH2.
  - rewrite IH. by apply py_sum_perm.
Qed.

Lemma np_add_reduce_exact `{!Reduction R} c (l : list R) :
  np_add_reduce c l = py_sum l.
Proof. apply sum_of_exact, np_add_reduce_sum. Qed.
End Exact.

(** ** Reductions of arrays of rank three and two *)

Section ArrayFacts.
Context {R : Type} `{!Additive R}.

Lemma fmap_seq_ext {A} (f g : nat → A) n :
  (∀ k, k < n → f k = g k) → f <$> seq 0 n = g <$> seq 0 n.
Proof.
  intros Hfg. apply list_fmap_ext. intros i x [-> ?]%lookup_seq. by apply Hfg.
Qed.

Lemma lookup_fmap_seq {A} (g : nat → A) n k :
  k < n → (g <$> seq 0 n) !! k = Some (g k).
Proof. intros. by rewrite list_lookup_fmap, lookup_seq_lt. Qed.

Lemma fmap_const_seq {A} (x : A) n : (λ _, x) <$> seq 0 n = replicate n x.
Proof.
  apply list_eq. intros k. rewrite list_lookup_fmap.
  destruct (decide (k < n)) as [Hk|Hk].
  - by rewrite lookup_seq_lt, lookup_replicate_2.
  - rewrite lookup_seq_ge by lia. symmetry.
    apply lookup_ge_None. rewrite length_replicate. lia.
Qed.

Lemma nelems_0 : nelems [] = 1.
Proof. done. Qed.

Lemma nelems_1 n : nelems [n] = n.
Proof. unfold nelems. simpl. lia. Qed.

Lemma nelems_2 m n : nelems [m; n] = m * n.
Proof. unfold nelems. simpl. lia. Qed.

Lemma nelems_3 l m n : nelems [l; m; n] = l * (m * n).
Proof. unfold nelems. simpl. lia. Qed.

Lemma ravel_1 T t : ravel [T] [t] = t.
Proof. done. Qed.

Lemma ravel_2 T N t i : ravel [T; N] [t; i] = t * N + i.
Proof. done. Qed.

Lemma ravel_3 T N1 N2 t i j : ravel [T; N1; N2] [t; i; j] = (t * N1 + i) * N2 + j.
Proof. done. Qed.

Lemma unravel_2 N T i t : t < T → unravel [N; T] (i * T + t) = [i; t].
Proof.
  intros Ht. cbn [unravel]. rewrite nelems_1, nelems_0.
  rewrite Nat.div_add_l, Nat.div_small, Nat.add_0_r by lia.
  rewrite Nat.add_comm, Nat.Div0.mod_add, Nat.mod_small, Nat.div_1_r by lia.
  done.
Qed.

Lemma item_table m n (f : nat → nat → R) i j :
  i < m → j < n → item (table m n f) (i * n + j) = f i j.
Proof. intros. unfold item. by rewrite table_lookup. Qed.

Lemma get_table m n (f : nat → nat → R) i j :
  i < m → j < n → get (NdArray [m; n] (table m n f)) [i; j] = f i j.
Proof. intros. unfold get. cbn [shape data]. rewrite ravel_2. by apply item_table. Qed.

Lemma get_fmap_seq T (g : nat → R) t :
  t < T → get (NdArray [T] (g <$> seq 0 T)) [t] = g t.
Proof.
  intros Ht. unfold get, item. cbn [shape data]. by rewrite ravel_1, lookup_fmap_seq.
Qed.

(** [a.T] on a [T x N] array. *)
Lemma transpose_rank2 (v : ndarray R) T N :
  shape v = [T; N] →
  transpose v = NdArray [N; T] (table N T (λ i t, get v [t; i])).
Proof.
  intros Hs. unfold transpose, get. rewrite Hs.
  replace (reverse [T; N]) with [N; T] by done.
  rewrite nelems_2, fmap_seq_table. f_equal.
  apply table_ext. intros i t _ Ht. by rewrite unravel_2.
Qed.

(** Transposing twice gives the array back. *)
Lemma transpose_transpose_table m n (f : nat → nat → R) :
  transpose (transpose (NdArray [m; n] (table m n f))) = NdArray [m; n] (table m n f).
Proof.
  rewrite (transpose_rank2 (NdArray [m; n] (table m n f)) m n) by done.
  rewrite (transpose_rank2 _ n m) by done. f_equal.
  apply table_ext. intros i j Hi Hj. by rewrite !get_table.
Qed.

(** [a[t]] on a [T x N1 x N2] array: the slice at time [t]. *)
Lemma getitem_rank3 (v : ndarray R) T N1 N2 t :
  wf v → shape v = [T; N1; N2] → t < T →
  getitem v t = Some (NdArray [N1; N2] (table N1 N2 (λ i j, get v [t; i; j]))).
Proof.
  unfold wf, getitem, get. intros Hwf Hs Ht. rewrite Hs in *.
  rewrite decide_True by done. do 2 f_equal.
  rewrite nelems_3 in Hwf. rewrite nelems_2.
  assert (t * (N1 * N2) + N1 * N2 ≤ length (data v)) as Hle by nia.
  trans ((λ k, item (data v) (t * (N1 * N2) + k)) <$> seq 0 (N1 * N2)).
  - apply (list_eq_same_length _ _ (N1 * N2)).
    + by rewrite length_fmap, length_seq.
    + rewrite length_take, length_drop. lia.
    + intros k x y Hk Hx Hy.
      rewrite lookup_take_lt, lookup_drop in Hx by done.
      rewrite list_lookup_fmap, lookup_seq_lt in Hy by done.
      simpl in Hy. unfold item in Hy. rewrite Hx in Hy. by simplify_eq.
  - rewrite fmap_seq_table. apply table_ext. intros i j _ _.
    f_equal. rewrite ravel_3. lia.
Qed.

Lemma getitem_slice (v : ndarray R) T N t :
  wf v → shape v = [T; N; N] → t < T → getitem v t = Some (slice v N t).
Proof. apply getitem_rank3. Qed.


Context `{!Reduction R}.

(** [a.sum(axis=1)] on a [T x N1 x N2] array: every column of every slice is
    reduced. *)
Lemma sum_axis1_rank3 st (v : ndarray R) T N1 N2 :
  shape v = [T; N1; N2] →
  sum_axis st 1 v =
    Some (NdArray [T; N2] (table T N2 (λ t j,
      np_add_reduce (ReduceCtx [T; N1; N2] st (SumAxis 1) (t * N2 + j))
        ((λ i, get v [t; i; j]) <$> seq 0 N1)))).
Proof.
  intros Hs. unfold sum_axis, get. rewrite Hs. simpl.
  rewrite !nelems_1. done.
Qed.

(** [a.sum(axis=2)] on a [T x N1 x N2] array: every row of every slice is
    reduced. *)
Lemma sum_axis2_rank3 st (v : ndarray R) T N1 N2 :
  shape v = [T; N1; N2] →
  sum_axis st 2 v =
    Some (NdArray [T; N1] (table T N1 (λ t i,
      np_add_reduce (ReduceCtx [T; N1; N2] st (SumAxis 2) (t * N1 + i))
        ((λ j, get v [t; i; j]) <$> seq 0 N2)))).
Proof.
  intros Hs. unfold sum_axis, get. rewrite Hs. simpl.
  rewrite nelems_2, nelems_0. do 2 f_equal.
  rewrite table_1_r, fmap_seq_table.
  apply table_ext. intros t i _ _. f_equal.
  - f_equal. lia.
  - apply fmap_seq_ext. intros j _. f_equal. unfold ravel. simpl. lia.
Qed.

(** [a.sum(axis=1)] on a [T x N] array: every row is reduced. *)
Lemma sum_axis1_rank2 st (v : ndarray R) T N :
  shape v = [T; N] →
  sum_axis st 1 v =
    Some (NdArray [T] ((λ t,
      np_add_reduce (ReduceCtx [T; N] st (SumAxis 1) t)
        ((λ j, get v [t; j]) <$> seq 0 N)) <$> seq 0 T)).
Proof.
  intros Hs. unfold sum_axis, get. rewrite Hs. simpl.
  rewrite nelems_1, nelems_0. do 2 f_equal.
  rewrite table_1_r. apply list_fmap_ext. intros _ t _. f_equal.
  - f_equal. lia.
  - apply fmap_seq_ext. intros j _. f_equal. unfold ravel. simpl. lia.
Qed.
End ArrayFacts.

(** ** The store *)

Section StoreFacts.
Context {R : Type} `{!Additive R}.
Implicit Types (σ : store R) (r : aref) (v w : ndarray R).

(** A reference that evaluates points into the store. *)
Lemma read_base_dom σ r v : read σ r = Some v → base r ∈ dom σ.
Proof.
  revert v. induction r as [l|b IH|b IH t]; intros v; simpl.
  - intros Hl. apply elem_of_dom. destruct (σ !! l); [eauto|done].
  - destruct (read σ b); [eauto|done].
  - destruct (read σ b); [eauto|done].
Qed.

(** Reading depends on the buffer of the base only. *)
Lemma read_agree σ σ' r : σ' !! base r = σ !! base r → read σ' r = read σ r.
Proof.
  induction r as [l|b IH|b IH t]; simpl; intros Hb; [by rewrite Hb| |]; by rewrite IH.
Qed.

(** So do the strides. *)
Lemma strides_agree σ σ' r : σ' !! base r = σ !! base r → strides σ' r = strides σ r.
Proof.
  induction r as [l|b IH|b IH t]; simpl; intros Hb; [by rewrite Hb| |]; by rewrite IH.
Qed.

Lemma read_insert_ne σ r l o : l ≠ base r → read (<[l:=o]> σ) r = read σ r.
Proof. intros Hl. apply read_agree. by rewrite lookup_insert_ne. Qed.

Lemma fresh_not_base σ r v : read σ r = Some v → fresh (dom σ) ≠ base r.
Proof.
  intros Hr Heq. apply (is_fresh (dom σ)). rewrite Heq. by eapply read_base_dom.
Qed.

Lemma read_alloc σ r v o :
  read σ r = Some v → read (<[fresh (dom σ):=o]> σ) r = Some v.
Proof. intros Hr. rewrite read_insert_ne; [done|]. by eapply fresh_not_base. Qed.

Lemma strides_alloc σ r v o :
  read σ r = Some v → strides (<[fresh (dom σ):=o]> σ) r = strides σ r.
Proof.
  intros Hr. apply strides_agree. rewrite lookup_insert_ne; [done|].
  by eapply fresh_not_base.
Qed.

(** Writing through a reference changes the buffer of its base only. *)
Lemma writeback_frame σ σ' r w l :
  writeback σ r w = Some σ' → l ≠ base r → σ' !! l = σ !! l.
Proof.
  revert w. induction r as [l'|b IH|b IH t]; intros w; simpl.
  - destruct (σ !! l'); simpl; [|done]. intros [= <-] Hl. by rewrite lookup_insert_ne.
  - eauto.
  - destruct (read σ b); simpl; [eauto|done].
Qed.

Lemma fresh_insert_ne σ o : fresh (dom (<[fresh (dom σ):=o]> σ)) ≠ fresh (dom σ).
Proof.
  intros Heq. apply (is_fresh (dom (<[fresh (dom σ):=o]> σ))).
  rewrite Heq at 1. rewrite dom_insert_L. set_solver.
Qed.

Lemma bind_run {A B} (m : M R A) (f : A → M R B) σ :
  (m ≫= f) σ = match m σ with Ok (x, σ') => f x σ' | Raise e => Raise e end.
Proof. done. Qed.

Lemma load_run σ r v : read σ r = Some v → load r σ = Ok (v, σ).
Proof. unfold load. by intros ->. Qed.

(** The security checks on a live array: they pass exactly on shapes
    [T x N x N], and leave the store as it is. *)
Lemma security_checks_run σ r v :
  read σ r = Some v →
  security_checks r σ =
    match shape v with
    | [T; N1; N2] =>
        if bool_decide (N1 = N2) then Ok ((T, N1, N2), σ)
        else Raise (AssertionError msg_square)
    | _ => Raise (AssertionError msg_rank)
    end.
Proof.
  intros Hr. unfold security_checks, np_shape.
  rewrite !bind_run, (load_run _ _ _ Hr). simpl. rewrite !bind_run.
  destruct (shape v) as [|T [|N1 [|N2 [|? ?]]]]; try done.
  simpl. unfold assert. by case_bool_decide.
Qed.

Lemma security_checks_ok σ r v T N :
  read σ r = Some v → shape v = [T; N; N] →
  security_checks r σ = Ok ((T, N, N), σ).
Proof.
  intros Hr Hs. rewrite (security_checks_run _ _ _ Hr), Hs.
  by rewrite bool_decide_eq_true_2.
Qed.

Context `{!Reduction R}.

Lemma ndarray_sum_run σ r k v w :
  read σ r = Some v → sum_axis (strides σ r) k v = Some w →
  ndarray_sum r k σ =
    Ok (Base (fresh (dom σ)),
        <[fresh (dom σ):=Object w (np_result_strides (shape v) (strides σ r) k)]> σ).
Proof.
  intros Hr Hs. unfold ndarray_sum, load_strides.
  rewrite bind_run, (load_run _ _ _ Hr), bind_run, Hs. done.
Qed.

(** What [TotalEvolution] does on a [T x N x N] tensor: two arrays are
    allocated, the column sums and their sums. *)
Lemma TotalEvolution_run σ r v T N :
  read σ r = Some v → shape v = [T; N; N] →
  let st1 := np_result_strides [T; N; N] (strides σ r) 1 in
  let w1 := column_sums (strides σ r) v T N in
  let σ1 := <[fresh (dom σ):=Object w1 st1]> σ in
  TotalEvolution r σ =
    Ok (Base (fresh (dom σ1)),
        <[fresh (dom σ1):=Object (totals st1 w1 T N)
                            (np_result_strides [T; N] st1 1)]> σ1).
Proof.
  intros Hr Hs st1 w1 σ1. unfold TotalEvolution.
  rewrite bind_run, (security_checks_ok _ _ _ _ _ Hr Hs).
  rewrite bind_run, (ndarray_sum_run _ _ _ _ w1 Hr) by by apply sum_axis1_rank3.
  rewrite Hs. fold st1 σ1.
  rewrite bind_run, (ndarray_sum_run _ _ _ w1 (totals st1 w1 T N)).
  - cbn [strides]. unfold σ1 at 3 4. by rewrite lookup_insert_eq.
  - cbn [read]. unfold σ1. by rewrite lookup_insert_eq.
  - cbn [strides]. unfold σ1. rewrite lookup_insert_eq. by apply sum_axis1_rank2.
Qed.

Lemma NodeEvolution_run σ r v T N directed :
  read σ r = Some v → shape v = [T; N; N] →
  let w1 := column_sums (strides σ r) v T N in
  let w2 := row_sums (strides σ r) v T N in
  let σ1 := <[fresh (dom σ):=
               Object w1 (np_result_strides [T; N; N] (strides σ r) 1)]> σ in
  NodeEvolution r directed σ =
    Ok ((ViewT (Base (fresh (dom σ))), ViewT (Base (fresh (dom σ1)))),
        <[fresh (dom σ1):=
            Object w2 (np_result_strides [T; N; N] (strides σ r) 2)]> σ1).
Proof.
  intros Hr Hs w1 w2 σ1. unfold NodeEvolution.
  rewrite bind_run, (security_checks_ok _ _ _ _ _ Hr Hs).
  rewrite bind_run, (ndarray_sum_run _ _ _ _ w1 Hr) by by apply sum_axis1_rank3.
  rewrite Hs. fold σ1.
  rewrite bind_run. unfold ndarray_T at 1. cbn [mret M_ret].
  rewrite bind_run, (ndarray_sum_run _ _ _ v w2).
  - unfold σ1 at 3 4. rewrite (strides_alloc _ _ v) by done. by rewrite Hs.
  - by apply read_alloc.
  - unfold σ1. rewrite (strides_alloc _ _ v) by done. by apply sum_axis2_rank3.
Qed.
End StoreFacts.

Section DiversityFacts.
Context {R : Type} `{!Dtype R} `{!Reduction R}.
Implicit Types (σ : store R) (r : aref) (v w : ndarray R).

(** One turn of the loop of [Diversity]: [diversity[t]] is overwritten and
    nothing else changes. *)
Lemma Diversity_body_run σ r v T N l d t :
  read σ r = Some v → wf v → shape v = [T; N; N] → l ∉ dom σ → t < T →
  (slice1 ← ndarray_getitem r t;
   sd ← ndarray_std slice1;
   slice2 ← ndarray_getitem r t;
   mu ← ndarray_mean slice2;
   ndarray_setitem (Base l) t (sc_div sd mu))
    (<[l:=Object (NdArray [T] d) (c_strides [T])]> σ)
  = Ok ((), <[l:=Object (NdArray [T]
                 (<[t:=ratio (tail (strides σ r)) (slice v N t)]> d))
               (c_strides [T])]> σ).
Proof.
  intros Hr Hwf Hs Hl Ht.
  assert (l ≠ base r) as Hne.
  { intros ->. by apply Hl, (read_base_dom _ _ v). }
  assert (read (<[l:=Object (NdArray [T] d) (c_strides [T])]> σ) r = Some v) as Hr'.
  { by rewrite read_insert_ne. }
  assert (strides (<[l:=Object (NdArray [T] d) (c_strides [T])]> σ) (ViewItem r t)
          = tail (strides σ r)) as Hst.
  { cbn [strides]. f_equal. apply strides_agree. by rewrite lookup_insert_ne. }
  assert (read (<[l:=Object (NdArray [T] d) (c_strides [T])]> σ) (ViewItem r t)
          = Some (slice v N t)) as Hv.
  { cbn [read]. rewrite Hr'. cbn [mbind option_bind]. by eapply getitem_slice. }
  pose proof (getitem_slice v T N t Hwf Hs Ht) as Hg.
  unfold ndarray_getitem, ndarray_std, ndarray_mean, ndarray_setitem, load_strides.
  rewrite !bind_run, (load_run _ _ _ Hr'), Hg. cbn [mret M_ret].
  rewrite !bind_run, (load_run _ _ _ Hv), !bind_run, Hst. cbn [mret M_ret].
  rewrite !bind_run, (load_run _ _ _ Hr'), Hg. cbn [mret M_ret].
  rewrite !bind_run, (load_run _ _ _ Hv), !bind_run, Hst. cbn [mret M_ret].
  rewrite bind_run, (load_run _ (Base l) (NdArray [T] d))
    by (cbn [read]; by rewrite lookup_insert_eq).
  unfold setitem. cbn [shape data]. rewrite decide_True by done.
  unfold update. cbn [writeback]. rewrite lookup_insert_eq. cbn [mbind option_bind].
  by rewrite insert_insert_eq.
Qed.

(** The loop of [Diversity] over the times [s], ..., [s + k - 1]. *)
Lemma Diversity_loop_run σ r v T N l k : ∀ s d,
  read σ r = Some v → wf v → shape v = [T; N; N] → l ∉ dom σ → s + k ≤ T →
  for_each (seq s k) (λ t,
    slice1 ← ndarray_getitem r t;
    sd ← ndarray_std slice1;
    slice2 ← ndarray_getitem r t;
    mu ← ndarray_mean slice2;
    ndarray_setitem (Base l) t (sc_div sd mu))
    (<[l:=Object (NdArray [T] d) (c_strides [T])]> σ)
  = Ok ((), <[l:=Object (NdArray [T]
                 (foldl (λ d t, <[t:=ratio (tail (strides σ r)) (slice v N t)]> d)
                    d (seq s k)))
               (c_strides [T])]> σ).
Proof.
  induction k as [|k IH]; intros s d Hr Hwf Hs Hl Hk; [done|].
  cbn [seq for_each foldl]. rewrite bind_run.
  rewrite (Diversity_body_run _ _ v T N) by (done || lia).
  apply IH; (done || lia).
Qed.

(** Filling an array front to back. *)
Lemma fill_seq {A} (g : nat → A) k : ∀ (d : list A),
  k ≤ length d →
  foldl (λ d t, <[t:=g t]> d) d (seq 0 k) = (g <$> seq 0 k) ++ drop k d.
Proof.
  induction k as [|k IH]; intros d Hk; [by rewrite drop_0|].
  rewrite seq_S, foldl_app, fmap_app. cbn [foldl fmap list_fmap Nat.add].
  rewrite IH by lia.
  rewrite insert_app_r_alt; rewrite length_fmap, length_seq; [|lia].
  rewrite Nat.sub_diag, <- assoc by apply _. f_equal.
  destruct (drop k d) as [|x d'] eqn:Hd.
  - apply (f_equal length) in Hd. rewrite length_drop in Hd. simpl in Hd. lia.
  - simpl. f_equal.
    replace (S k) with (k + 1) by lia. by rewrite <- drop_drop, Hd.
Qed.

(** What [Diversity] does on a [T x N x N] tensor: one array is allocated
    and entry [t] is the ratio for the slice at [t]. *)
Lemma Diversity_run σ r v T N :
  read σ r = Some v → wf v → shape v = [T; N; N] →
  Diversity r σ =
    Ok (Base (fresh (dom σ)),
        <[fresh (dom σ):=Object (NdArray [T]
             ((λ t, ratio (tail (strides σ r)) (slice v N t)) <$> seq 0 T))
           (c_strides [T])]> σ).
Proof.
  intros Hr Hwf Hs. unfold Diversity.
  rewrite bind_run, (security_checks_ok _ _ _ _ _ Hr Hs).
  rewrite bind_run. unfold np_zeros at 1, alloc at 1, zeros.
  rewrite bind_run.
  rewrite (Diversity_loop_run _ _ v T N) by (done || lia || apply is_fresh).
  cbn [mret M_ret]. do 4 f_equal.
  rewrite fill_seq by (by rewrite length_replicate).
  rewrite drop_ge by (by rewrite length_replicate).
  by rewrite app_nil_r.
Qed.
End DiversityFacts.

(** ** The values the three functions return *)

Section ReturnedValues.
Context {R : Type} `{!Additive R} `{!Reduction R}.
Implicit Types (σ : store R) (r : aref) (v w : ndarray R).

Lemma TotalEvolution_returns σ r v T N :
  read σ r = Some v → shape v = [T; N; N] →
  returned (TotalEvolution r σ) =
    Some (totals (np_result_strides [T; N; N] (strides σ r) 1)
            (column_sums (strides σ r) v T N) T N).
Proof.
  intros Hr Hs. rewrite (TotalEvolution_run _ _ _ _ _ Hr Hs).
  cbn [returned read]. by rewrite lookup_insert_eq.
Qed.

Lemma NodeEvolution_returns σ r v T N directed :
  read σ r = Some v → shape v = [T; N; N] →
  returned2 (NodeEvolution r directed σ) =
    Some (transpose (column_sums (strides σ r) v T N),
          transpose (row_sums (strides σ r) v T N)).
Proof.
  intros Hr Hs. rewrite (NodeEvolution_run _ _ _ _ _ _ Hr Hs).
  cbn [returned2 read].
  rewrite lookup_insert_eq, lookup_insert_ne, lookup_insert_eq
    by apply fresh_insert_ne.
  done.
Qed.

(** The transposes, entry by entry. *)
Lemma transpose_column_sums st v T N :
  transpose (column_sums st v T N) =
    NdArray [N; T] (table N T (λ i t,
      np_add_reduce (ReduceCtx [T; N; N] st (SumAxis 1) (t * N + i))
        ((λ k, get v [t; k; i]) <$> seq 0 N))).
Proof.
  unfold column_sums. rewrite (transpose_rank2 _ T N) by done. f_equal.
  apply table_ext. intros i t Hi Ht. by rewrite get_table.
Qed.

Lemma transpose_row_sums st v T N :
  transpose (row_sums st v T N) =
    NdArray [N; T] (table N T (λ i t,
      np_add_reduce (ReduceCtx [T; N; N] st (SumAxis 2) (t * N + i))
        ((λ k, get v [t; i; k]) <$> seq 0 N))).
Proof.
  unfold row_sums. rewrite (transpose_rank2 _ T N) by done. f_equal.
  apply table_ext. intros i t Hi Ht. by rewrite get_table.
Qed.
End ReturnedValues.

Section DiversityValue.
Context {R : Type} `{!Dtype R} `{!Reduction R}.

Lemma Diversity_returns (σ : store R) r v T N :
  read σ r = Some v → wf v → shape v = [T; N; N] →
  returned (Diversity r σ) =
    Some (NdArray [T]
            ((λ t, ratio (tail (strides σ r)) (slice v N t)) <$> seq 0 T)).
Proof.
  intros Hr Hwf Hs. rewrite (Diversity_run _ _ _ _ _ Hr Hwf Hs).
  cbn [returned read]. by rewrite lookup_insert_eq.
Qed.
End DiversityValue.

(** Dividing by a zero of either sign gives a NaN or an infinity. *)
Lemma f64_div_zero (x : float64) s :
  SFdiv 53 1024 x (S754_zero s) = S754_nan ∨
  ∃ s', SFdiv 53 1024 x (S754_zero s) = S754_infinity s'.
Proof. destruct x; simpl; eauto. Qed.

(** ** Errors *)

Section Errors.
Context {R : Type} `{!Dtype R} `{!Reduction R}.
Implicit Types (σ : store R) (a : aref) (v : ndarray R).

(** An exception of the security checks is the exception of the call: no
    statement after the checks is reached. *)
Lemma security_checks_raise σ a e directed :
  security_checks a σ = Raise e →
  TotalEvolution a σ = Raise e ∧
  NodeEvolution a directed σ = Raise e ∧
  Diversity a σ = Raise e.
Proof.
  intros He. unfold TotalEvolution, NodeEvolution, Diversity.
  by rewrite !bind_run, He.
Qed.

(** On shapes [T x N x N] the three functions return. *)
Lemma aligned_no_raise σ a v T N directed :
  read σ a = Some v → wf v → shape v = [T; N; N] →
  (∃ x, TotalEvolution a σ = Ok x) ∧
  (∃ x, NodeEvolution a directed σ = Ok x) ∧
  (∃ x, Diversity a σ = Ok x).
Proof.
  intros Hr Hwf Hs.
  rewrite (TotalEvolution_run _ _ _ _ _ Hr Hs).
  rewrite (NodeEvolution_run _ _ _ _ _ _ Hr Hs).
  rewrite (Diversity_run _ _ _ _ _ Hr Hwf Hs). split_and!; by eexists.
Qed.

Lemma shape_cases (s : list nat) :
  (∃ T N, s = [T; N; N]) ∨ ¬ (∃ T N, s = [T; N; N]).
Proof.
  destruct s as [|T [|N1 [|N2 [|? ?]]]];
    try (right; intros (? & ? & ?); discriminate).
  destruct (decide (N1 = N2)) as [->|Hne]; [left; eauto|].
  right. intros (? & ? & ?). congruence.
Qed.

(** What a call returns, or that it raises, is decided by the value and the
    strides of the array it is given: what else is alive makes no
    difference. *)
Lemma returned_by_value σ σ' a v directed :
  read σ a = Some v → read σ' a = Some v → strides σ' a = strides σ a → wf v →
  returned (TotalEvolution a σ') = returned (TotalEvolution a σ) ∧
  returned2 (NodeEvolution a directed σ') = returned2 (NodeEvolution a directed σ) ∧
  returned (Diversity a σ') = returned (Diversity a σ).
Proof.
  intros Hr Hr' Hst Hwf.
  destruct (shape_cases (shape v)) as [(T & N & Hs)|Hbad].
  - rewrite (TotalEvolution_returns _ _ _ _ _ Hr Hs).
    rewrite (TotalEvolution_returns _ _ _ _ _ Hr' Hs).
    rewrite (NodeEvolution_returns _ _ _ _ _ _ Hr Hs).
    rewrite (NodeEvolution_returns _ _ _ _ _ _ Hr' Hs).
    rewrite (Diversity_returns _ _ _ _ _ Hr Hwf Hs).
    rewrite (Diversity_returns _ _ _ _ _ Hr' Hwf Hs).
    by rewrite Hst.
  - assert (∃ e, security_checks a σ = Raise e ∧ security_checks a σ' = Raise e)
      as (e & He & He').
    { rewrite (security_checks_run _ _ _ Hr), (security_checks_run _ _ _ Hr').
      destruct (shape v) as [|T [|N1 [|N2 [|? ?]]]]; try by eexists.
      case_bool_decide as HN; [|by eexists].
      subst. destruct Hbad. eauto. }
    destruct (security_checks_raise σ a e directed He) as (-> & -> & ->).
    by destruct (security_checks_raise σ' a e directed He') as (-> & -> & ->).
Qed.
End Errors.

(** ** Old objects and new buffers *)

Section Frame.
Context {R : Type} `{!Additive R}.
Implicit Types (σ : store R) (a res : aref) (v : ndarray R).

(** A call that leaves the old objects alone and returns a reference into a
    new buffer only reads its argument. *)
Lemma reads_only_intro σ σ' a res v :
  read σ a = Some v →
  (∀ l, l ∈ dom σ → σ' !! l = σ !! l) →
  base res ∉ dom σ →
  reads_only σ σ' a res.
Proof.
  intros Hr Hold Hnew.
  pose proof (read_base_dom _ _ _ Hr) as Ha.
  split_and!; [done| |done|].
  - apply read_agree. by apply Hold.
  - intros w σ'' Hw. apply read_agree.
    assert (base a ≠ base res) as Hne by (intros Heq; apply Hnew; by rewrite <- Heq).
    rewrite (writeback_frame σ' σ'' res w (base a) Hw Hne). by apply Hold.
Qed.

Lemma insert_fresh_old σ (w : object R) l :
  l ∈ dom σ → <[fresh (dom σ):=w]> σ !! l = σ !! l.
Proof.
  intros Hl. apply lookup_insert_ne. intros Heq.
  apply (is_fresh (dom σ)). by rewrite Heq.
Qed.

Lemma insert_fresh2_old σ (w1 w2 : object R) l :
  l ∈ dom σ →
  <[fresh (dom (<[fresh (dom σ):=w1]> σ)):=w2]> (<[fresh (dom σ):=w1]> σ) !! l
  = σ !! l.
Proof.
  intros Hl. rewrite insert_fresh_old; [by apply insert_fresh_old|].
  rewrite dom_insert_L. set_solver.
Qed.

Lemma fresh2_not_old σ (w1 : object R) :
  fresh (dom (<[fresh (dom σ):=w1]> σ)) ∉ dom σ.
Proof.
  intros Hl. apply (is_fresh (dom (<[fresh (dom σ):=w1]> σ))).
  revert Hl. generalize (fresh (dom (<[fresh (dom σ):=w1]> σ))). intros l2 Hl.
  rewrite dom_insert_L. set_solver.
Qed.
End Frame.

(** ** Sums over a slice, whatever the order *)

Section Orders.
Context {A : Type}.

Lemma bind_cons_perm {B} (l : list B) (h : B → A) (g : B → list A) :
  (j ← l; h j :: g j) ≡ₚ (h <$> l) ++ (j ← l; g j).
Proof.
  induction l as [|x l IH]; [done|].
  cbn [mbind list_bind fmap list_fmap app]. constructor.
  rewrite IH. apply Permutation_app_swap_app.
Qed.

Lemma bind_nil_r {B} (l : list B) : (j ← l; @nil A) = [].
Proof. induction l as [|x l IH]; [done|]. by cbn [mbind list_bind app]. Qed.

Lemma bind_fmap_swap {B C} (l1 : list B) (l2 : list C) (f : B → C → A) :
  (j ← l2; (λ i, f i j) <$> l1) ≡ₚ (i ← l1; f i <$> l2).
Proof.
  induction l1 as [|a l1 IH].
  - cbn [fmap list_fmap mbind list_bind]. by rewrite bind_nil_r.
  - cbn [fmap list_fmap]. rewrite bind_cons_perm.
    cbn [mbind list_bind]. by rewrite IH.
Qed.

(** A table read column by column holds the elements of the table. *)
Lemma table_transpose_perm m n (f : nat → nat → A) :
  table n m (λ j i, f i j) ≡ₚ table m n f.
Proof. apply bind_fmap_swap. Qed.

Lemma table_concat m n (f : nat → nat → A) :
  table m n f = concat ((λ i, f i <$> seq 0 n) <$> seq 0 m).
Proof.
  unfold table. induction (seq 0 m) as [|i l IH]; [done|].
  cbn [mbind list_bind fmap list_fmap concat]. by rewrite IH.
Qed.
End Orders.

Section SliceSums.
Context {R : Type} `{!Additive R}.

(** Sums of the rows of a table add up to a sum of the table. *)
Lemma sum_of_rows m n (f : nat → nat → R) (g : nat → R) x :
  (∀ i, i < m → sum_of (f i <$> seq 0 n) (g i)) →
  sum_of (g <$> seq 0 m) x →
  sum_of (table m n f) x.
Proof.
  intros Hrows Hx. rewrite table_concat.
  apply (sum_of_concat _ _ Hx).
  apply Forall2_fmap, Forall2_same_length_lookup_2; [done|].
  intros k i i' Hi Hi'. rewrite Hi in Hi'. injection Hi' as <-.
  apply lookup_seq in Hi as [-> Hk]. by apply Hrows.
Qed.

(** Sums of the columns of a table add up to a sum of the table. *)
Lemma sum_of_columns m n (f : nat → nat → R) (g : nat → R) x :
  (∀ j, j < n → sum_of ((λ i, f i j) <$> seq 0 m) (g j)) →
  sum_of (g <$> seq 0 n) x →
  sum_of (table m n f) x.
Proof.
  intros Hcols Hx. apply (sum_of_perm (table n m (λ j i, f i j)));
    [apply table_transpose_perm|].
  by apply (sum_of_rows n m (λ j i, f i j) g).
Qed.
End SliceSums.

(** ** Sums of integers *)

Lemma Zsum_list_app (l1 l2 : list Z) :
  foldr Z.add 0%Z (l1 ++ l2) = (foldr Z.add 0 l1 + foldr Z.add 0 l2)%Z.
Proof. induction l1 as [|z l1 IH]; simpl; lia. Qed.

Lemma Zsum_list_perm (l l' : list Z) :
  l ≡ₚ l' → foldr Z.add 0%Z l = foldr Z.add 0%Z l'.
Proof. induction 1; simpl; lia. Qed.

Lemma Zsum_list_abs (l : list Z) :
  (Z.abs (foldr Z.add 0 l) ≤ foldr Z.add 0 (Z.abs <$> l))%Z.
Proof. induction l as [|z l IH]; cbn [fmap list_fmap foldr]; lia. Qed.

Lemma Zsum_list_abs_nonneg (l : list Z) : (0 ≤ foldr Z.add 0 (Z.abs <$> l))%Z.
Proof. induction l as [|z l IH]; cbn [fmap list_fmap foldr]; lia. Qed.

Lemma Zsum_ext n (f g : nat → Z) :
  (∀ i, i < n → f i = g i) → Zsum n f = Zsum n g.
Proof. intros Hfg. unfold Zsum. f_equal. by apply fmap_seq_ext. Qed.

Lemma Zsum_table m n (f : nat → nat → Z) :
  foldr Z.add 0%Z (table m n f) = Zsum m (λ i, Zsum n (f i)).
Proof.
  unfold table, Zsum. induction (seq 0 m) as [|i l IH]; [done|].
  cbn [mbind list_bind fmap list_fmap foldr]. by rewrite Zsum_list_app, IH.
Qed.

(** The order of summation over the two indices of a table is immaterial. *)
Lemma Zsum_swap m n (f : nat → nat → Z) :
  Zsum n (λ j, Zsum m (λ i, f i j)) = Zsum m (λ i, Zsum n (f i)).
Proof.
  rewrite <- (Zsum_table n m (λ j i, f i j)), <- Zsum_table.
  apply Zsum_list_perm, table_transpose_perm.
Qed.

Lemma Zsum_abs n (f : nat → Z) : (Z.abs (Zsum n f) ≤ Zsum n (λ i, Z.abs (f i)))%Z.
Proof.
  unfold Zsum. etrans; [apply Zsum_list_abs|]. by rewrite <- list_fmap_compose.
Qed.

Lemma Zsum_le n (f g : nat → Z) :
  (∀ i, i < n → (f i ≤ g i)%Z) → (Zsum n f ≤ Zsum n g)%Z.
Proof.
  unfold Zsum. intros Hfg.
  assert (∀ k, k ∈ seq 0 n → (f k ≤ g k)%Z) as Hin.
  { intros k Hk. apply elem_of_seq in Hk. apply Hfg. lia. }
  clear Hfg. induction (seq 0 n) as [|i l IH]; [done|].
  cbn [fmap list_fmap foldr].
  pose proof (Hin i ltac:(left)).
  assert (foldr Z.add 0 (f <$> l) ≤ foldr Z.add 0 (g <$> l))%Z; [|lia].
  apply IH. intros k Hk. apply Hin. by right.
Qed.

(** One term of a sum of absolute values is at most the sum. *)
Lemma Zsum_abs_term n (f : nat → Z) i :
  i < n → (Z.abs (f i) ≤ Zsum n (λ k, Z.abs (f k)))%Z.
Proof.
  intros Hi. unfold Zsum.
  assert (i ∈ seq 0 n) as Hin by (apply elem_of_seq; lia).
  induction (seq 0 n) as [|k l IH]; [by apply elem_of_nil in Hin|].
  cbn [fmap list_fmap foldr].
  pose proof (Zsum_list_abs_nonneg (f <$> l)) as Hnn.
  rewrite <- list_fmap_compose in Hnn.
  apply elem_of_cons in Hin as [->|Hin]; [unfold compose in Hnn; lia|].
  specialize (IH Hin). lia.
Qed.

(** ** Additions without rounding *)

Section Image.
Context {R : Type} `{!Additive R} (φ : Z → R) (B : Z).
Hypothesis Hexact : adds_exactly φ B.

(** Where the additions are exact, every way of summing gives the image of
    the integer sum. *)
Lemma sum_of_image (l : list R) x :
  sum_of l x → ∀ zs, l = φ <$> zs →
  (foldr Z.add 0 (Z.abs <$> zs) ≤ B)%Z →
  x = φ (foldr Z.add 0%Z zs).
Proof.
  destruct Hexact as [H0 Hadd].
  induction 1 as [|y|l1 l2 x y _ IH1 _ IH2|l l' x Hp _ IH]; intros zs Hzs Hb.
  - symmetry in Hzs. apply fmap_nil_inv in Hzs as ->. by rewrite <- H0.
  - destruct zs as [|z [|? ?]]; try discriminate.
    injection Hzs as ->. simpl. f_equal. lia.
  - symmetry in Hzs. apply fmap_app_inv in Hzs as (zs1 & zs2 & -> & -> & ->).
    rewrite fmap_app, Zsum_list_app in Hb.
    pose proof (Zsum_list_abs zs1). pose proof (Zsum_list_abs zs2).
    pose proof (Zsum_list_abs_nonneg zs1). pose proof (Zsum_list_abs_nonneg zs2).
    rewrite (IH1 zs1), (IH2 zs2), Zsum_list_app by (done || lia).
    apply Hadd; lia.
  - subst l'. apply Permutation_map_inv in Hp as (zs0 & -> & Hp).
    rewrite (IH zs0 eq_refl).
    + f_equal. by apply Zsum_list_perm.
    + erewrite Zsum_list_perm; [exact Hb|]. by rewrite Hp.
Qed.

Lemma sum_of_image_seq n (f : nat → Z) x :
  sum_of ((λ i, φ (f i)) <$> seq 0 n) x →
  (Zsum n (λ i, Z.abs (f i)) ≤ B)%Z →
  x = φ (Zsum n f).
Proof.
  intros Hx Hb. apply (sum_of_image _ _ Hx).
  - by rewrite <- list_fmap_compose.
  - by rewrite <- list_fmap_compose.
Qed.
End Image.

Lemma Zsum_term_le n (f : nat → Z) i :
  (∀ k, k < n → (0 ≤ f k)%Z) → i < n → (f i ≤ Zsum n f)%Z.
Proof.
  intros Hnn Hi. pose proof (Zsum_abs_term n f i Hi) as Hle.
  rewrite (Zsum_ext n (λ k, Z.abs (f k)) f) in Hle; [lia|].
  intros k Hk. specialize (Hnn k Hk). lia.
Qed.

Lemma Zsum_nonneg n (f : nat → Z) :
  (∀ k, k < n → (0 ≤ f k)%Z) → (0 ≤ Zsum n f)%Z.
Proof.
  intros Hnn. pose proof (Zsum_abs n f) as Hle.
  rewrite (Zsum_ext n (λ k, Z.abs (f k)) f) in Hle; [lia|].
  intros k Hk. specialize (Hnn k Hk). lia.
Qed.

(** ** The entries of the computed arrays *)

Section Entries.
Context {R : Type} `{!Additive R} `{!Reduction R}.
Implicit Types (v : ndarray R) (st : list nat).

Lemma column_sums_sum_of st v T N t j :
  t < T → j < N →
  sum_of ((λ i, get v [t; i; j]) <$> seq 0 N) (get (column_sums st v T N) [t; j]).
Proof.
  intros Ht Hj. unfold column_sums. rewrite get_table by done.
  apply np_add_reduce_sum.
Qed.

Lemma row_sums_sum_of st v T N t i :
  t < T → i < N →
  sum_of ((λ j, get v [t; i; j]) <$> seq 0 N) (get (row_sums st v T N) [t; i]).
Proof.
  intros Ht Hi. unfold row_sums. rewrite get_table by done.
  apply np_add_reduce_sum.
Qed.

(** A sum of the column sums of a slice is a sum of the slice. *)
Lemma totals_sum_of st st' v T N t :
  t < T →
  sum_of (data (slice v N t)) (get (totals st' (column_sums st v T N) T N) [t]).
Proof.
  intros Ht. unfold totals. rewrite get_fmap_seq by done.
  unfold slice. cbn [data].
  apply (sum_of_columns N N (λ i j, get v [t; i; j])
           (λ j, get (column_sums st v T N) [t; j])).
  - intros j Hj. by apply column_sums_sum_of.
  - apply np_add_reduce_sum.
Qed.

Lemma totals_lookup st w T N t :
  t < T → data (totals st w T N) !! t = Some (get (totals st w T N) [t]).
Proof.
  intros Ht. unfold totals. rewrite get_fmap_seq by done.
  cbn [data]. by rewrite lookup_fmap_seq.
Qed.

Lemma transpose_column_sums_entry st v T N i t :
  i < N → t < T →
  get (transpose (column_sums st v T N)) [i; t] = get (column_sums st v T N) [t; i].
Proof.
  intros Hi Ht. unfold column_sums. rewrite (transpose_rank2 _ T N) by done.
  by rewrite get_table.
Qed.

Lemma transpose_row_sums_entry st v T N i t :
  i < N → t < T →
  get (transpose (row_sums st v T N)) [i; t] = get (row_sums st v T N) [t; i].
Proof.
  intros Hi Ht. unfold row_sums. rewrite (transpose_rank2 _ T N) by done.
  by rewrite get_table.
Qed.
End Entries.

Section RatioFacts.
Context {R : Type} `{!Dtype R} `{!Reduction R}.


End RatioFacts.

(** ** Element types that add integers exactly *)

(** [int64] wraps around, and wrapping commutes with addition: whatever the
    magnitudes. *)
Lemma int64_adds_exactly B : adds_exactly i64 B.
Proof.
  split; [done|]. intros a b _ _ _. symmetry. apply Zmod.of_Z_add.
Qed.

Lemma elem_of_Zrange B a : (Z.abs a ≤ B)%Z → a ∈ Zrange B.
Proof.
  intros Ha. unfold Zrange. apply list_elem_of_fmap.
  exists (Z.to_nat (a + B)). split; [lia|]. apply elem_of_seq. lia.
Qed.

Lemma adds_exactly_by_cases B :
  forallb (λ a, forallb (f64_add_exact a) (Zrange B)) (Zrange B) = true →
  adds_exactly f64_of_Z B.
Proof.
  intros Hall. split; [done|]. intros a b Ha Hb _.
  rewrite forallb_forall in Hall.
  specialize (Hall a). rewrite <- list_elem_of_In in Hall.
  specialize (Hall (elem_of_Zrange B a Ha)).
  rewrite forallb_forall in Hall.
  specialize (Hall b). rewrite <- list_elem_of_In in Hall.
  specialize (Hall (elem_of_Zrange B b Hb)).
  by apply bool_decide_eq_true in Hall.
Qed.

(** [float64] adds small integers exactly. *)
Lemma f64_adds_exactly_64 : adds_exactly f64_of_Z 64.
Proof. apply adds_exactly_by_cases. vm_compute. reflexivity. Qed.

(** * The claims of the specification *)

(** ** C1: [TotalEvolution] *)



(** In exact arithmetic there is one sum: the entry at [t] is the sum of the
    buffer of the slice [v[t]], read front to back. *)
Lemma TotalEvolution_flat_sum {R} `{!Additive R} `{!ExactSum R} `{!Reduction R}
    (σ : store R) a v T N :
  read σ a = Some v → wf v → shape v = [T; N; N] →
  ∃ out, returned (TotalEvolution a σ) = Some out ∧
    ∀ t, t < T → ∃ m, getitem v t = Some m ∧ data out !! t = Some (py_sum (data m)).
Proof.
  intros Hr Hwf Hs. eexists. split; [by apply TotalEvolution_returns|].
  intros t Ht. eexists. split; [by eapply getitem_slice|].
  rewrite totals_lookup by done. f_equal.
  by apply sum_of_exact, totals_sum_of.
Qed.

(** The scenario of the specification: the totals are [10] and [0]. *)
Example TotalEvolution_scenario :
  returned (TotalEvolution (Base 1) (store_of tensorI))
    = Some (NdArray [2] (i64 <$> [10; 0]%Z)).
Proof. vm_compute. reflexivity. Qed.

(** Eight times [0.1]: added from first to last they give
    [0.7999999999999999], added in pairs, as NumPy adds a contiguous run of
    eight, they give [0.8].  Both are sums of the eight entries. *)
Example two_sums_of_eight_tenths :
  let tenth := S754_finite false 7205759403792794 (-56) in
  let l := replicate 8 tenth in
  let pair x y := sc_add x y in
  sum_of l (py_sum l) ∧
  sum_of l (pair (pair (pair tenth tenth) (pair tenth tenth))
                 (pair (pair tenth tenth) (pair tenth tenth))) ∧
  py_sum l = S754_finite false 7205759403792793 (-53) ∧
  pair (pair (pair tenth tenth) (pair tenth tenth))
       (pair (pair tenth tenth) (pair tenth tenth))
    = S754_finite false 7205759403792794 (-53).
Proof.
  intros tenth l pair. split; [apply sum_of_py_sum|]. split.
  - apply (sum_of_add [tenth; tenth; tenth; tenth] [tenth; tenth; tenth; tenth]);
      apply (sum_of_add [tenth; tenth] [tenth; tenth]);
      apply (sum_of_add [tenth] [tenth]); apply sum_of_one.
  - split; vm_compute; reflexivity.
Qed.

(** ** C2: [NodeEvolution] *)



(** The scenario of the specification: inputs [[4, 0], [6, 0]], outputs
    [[3, 0], [7, 0]]. *)
Example NodeEvolution_scenario :
  returned2 (NodeEvolution (Base 1) false (store_of tensorI)) =
    Some (NdArray [2; 2] (i64 <$> [4; 0; 6; 0]%Z), NdArray [2; 2] (i64 <$> [3; 0; 7; 0]%Z)).
Proof. vm_compute. reflexivity. Qed.

(** ** C3: [Diversity] *)



(** The scenario of the specification: [Diversity[0]] is
    [std([1, 2, 3, 4]) / mean([1, 2, 3, 4])], about [0.4472], and
    [Diversity[1]], a ratio of zeros, is not a number. *)
Example Diversity_scenario :
  returned (Diversity (Base 1) (store_of tensorF)) =
    Some (NdArray [2] [S754_finite false 8056283928194522 (-54); S754_nan]).
Proof. vm_compute. reflexivity. Qed.

(** ** C4: the shape error *)

(** C4. Each of [TotalEvolution], [NodeEvolution] and [Diversity] raises the
    assertion error of the security checks, and returns nothing, exactly if
    the rank of the input is not three or its last two dimensions differ;
    the exception is the one of the checks, which run first. *)
Theorem shape_error_iff {R} `{!Dtype R} `{!Reduction R} (σ : store R) a v directed :
  read σ a = Some v → wf v →
  ((∃ msg, TotalEvolution a σ = Raise (AssertionError msg)) ↔ misaligned (shape v)) ∧
  ((∃ msg, NodeEvolution a directed σ = Raise (AssertionError msg))
     ↔ misaligned (shape v)) ∧
  ((∃ msg, Diversity a σ = Raise (AssertionError msg)) ↔ misaligned (shape v)) ∧
  (misaligned (shape v) → ∃ msg,
     security_checks a σ = Raise (AssertionError msg) ∧
     TotalEvolution a σ = Raise (AssertionError msg) ∧
     NodeEvolution a directed σ = Raise (AssertionError msg) ∧
     Diversity a σ = Raise (AssertionError msg)).
Proof.
  intros Hr Hwf.
  destruct (shape_cases (shape v)) as [(T & N & Hs)|Hbad].
  - destruct (aligned_no_raise σ a v T N directed Hr Hwf Hs)
      as ([x1 H1] & [x2 H2] & [x3 H3]).
    assert (¬ misaligned (shape v)) as Hok.
    { unfold misaligned. rewrite Hs. simpl. intros [?|?]; done. }
    rewrite H1, H2, H3.
    repeat split; try (intros [? ?]; done); try (intros ?; done).
  - assert (misaligned (shape v) ∧
            ∃ msg, security_checks a σ = Raise (AssertionError msg))
      as [Hmis [msg He]].
    { rewrite (security_checks_run _ _ _ Hr). unfold misaligned.
      destruct (shape v) as [|T [|N1 [|N2 [|? ?]]]]; simpl;
        try (split; [left; lia | by eexists]).
      case_bool_decide as HN.
      - subst. destruct Hbad. eauto.
      - split; [right; congruence | by eexists]. }
    destruct (security_checks_raise σ a _ directed He) as (H1 & H2 & H3).
    rewrite H1, H2, H3.
    repeat split; try (intros _; done); try (intros _; by eexists).
Qed.

Lemma shape_error_iff_witness :
  read (store_of matrixF) (Base 1) = Some matrixF ∧ wf matrixF ∧
  ((∃ msg, TotalEvolution (Base 1) (store_of matrixF) = Raise (AssertionError msg))
     ↔ misaligned (shape matrixF)) ∧
  ((∃ msg, NodeEvolution (Base 1) false (store_of matrixF) = Raise (AssertionError msg))
     ↔ misaligned (shape matrixF)) ∧
  ((∃ msg, Diversity (Base 1) (store_of matrixF) = Raise (AssertionError msg))
     ↔ misaligned (shape matrixF)) ∧
  (misaligned (shape matrixF) → ∃ msg,
     security_checks (Base 1) (store_of matrixF) = Raise (AssertionError msg) ∧
     TotalEvolution (Base 1) (store_of matrixF) = Raise (AssertionError msg) ∧
     NodeEvolution (Base 1) false (store_of matrixF) = Raise (AssertionError msg) ∧
     Diversity (Base 1) (store_of matrixF) = Raise (AssertionError msg)).
Proof.
  split; [reflexivity|]. split; [reflexivity|].
  apply (shape_error_iff (store_of matrixF) (Base 1) matrixF false); reflexivity.
Defined.

(** Rank two, rank four and a non-square trailing shape are refused. *)
Example rank2_refused :
  TotalEvolution (Base 1) (store_of (NdArray [2; 2] (i64 <$> [1; 2; 3; 4]%Z)))
    = Raise (AssertionError msg_rank).
Proof. reflexivity. Qed.

Example rank4_refused :
  NodeEvolution (Base 1) false (store_of (NdArray [1; 1; 2; 2] (i64 <$> [1; 2; 3; 4]%Z)))
    = Raise (AssertionError msg_rank).
Proof. reflexivity. Qed.

Example non_square_refused :
  Diversity (Base 1) (store_of (NdArray [1; 3; 4] (replicate 12 (f64_of_Z 1))))
    = Raise (AssertionError msg_square).
Proof. reflexivity. Qed.

(** ** C5: input mass, output mass, total mass *)

(** C5, as stated, fails for [float64] entries.  For the single slice
    [[2^53, -2^53], [1, 1]] the column sums are [2^53] (the [1] is rounded
    away) and [-(2^53 - 1)], so the input mass and the total are [1]; the row
    sums are [0] and [2], so the output mass is [2].  (Each sum has two
    terms: the order of the additions plays no part.) *)
Lemma mass_balance_fails_in_float64 :
  read (store_of tensorC) (Base 1) = Some tensorC ∧ wf tensorC ∧
  shape tensorC = [1; 2; 2] ∧
  ¬ mass_balance (store_of tensorC) (Base 1) 1 2.
Proof.
  split; [reflexivity|]. split; [reflexivity|]. split; [reflexivity|].
  intros (ins & outs & tot & Hn & Ht & Hbal).
  vm_compute in Hn. vm_compute in Ht.
  injection Hn as <- <-. injection Ht as <-.
  destruct (Hbal 0) as [Heq _]; [lia|].
  vm_compute in Heq. discriminate.
Qed.

(** The three masses of that slice. *)
Example masses_in_float64 :
  ∃ ins outs tot,
    returned2 (NodeEvolution (Base 1) false (store_of tensorC)) = Some (ins, outs) ∧
    returned (TotalEvolution (Base 1) (store_of tensorC)) = Some tot ∧
    node_mass ins 2 0 = f64_of_Z 1 ∧
    node_mass outs 2 0 = f64_of_Z 2 ∧
    get tot [0] = f64_of_Z 1.
Proof. do 3 eexists. vm_compute. done. Qed.

(** C5, amended.  Let the entries of a tensor of shape [T x N x N] be
    integers [e t i j], carried into the element type by a map [φ] under
    which the addition of the element type is the addition of the integers
    as long as the magnitudes stay within a bound [B], and let the absolute
    values of the entries of every slice add up to at most [B].  Then at
    every time [t] the sum over the nodes of the inputs equals the sum over
    the nodes of the outputs, and both equal the entry of [TotalEvolution]
    at [t]: no addition rounds, in whatever order NumPy adds. *)
Theorem mass_balance_exact {R} `{!Additive R} `{!Reduction R}
    (φ : Z → R) (B : Z) (e : nat → nat → nat → Z) (σ : store R) a v T N :
  adds_exactly φ B →
  read σ a = Some v → shape v = [T; N; N] →
  (∀ t i j, t < T → i < N → j < N → get v [t; i; j] = φ (e t i j)) →
  (∀ t, t < T → (Zsum N (λ i, Zsum N (λ j, Z.abs (e t i j))) ≤ B)%Z) →
  mass_balance σ a T N.
Proof.
  intros Hφ Hr Hs Hv Hb. do 3 eexists.
  split; [by apply NodeEvolution_returns|].
  split; [by apply TotalEvolution_returns|].
  intros t Ht. specialize (Hb t Ht).
  set (st := strides σ a). fold st.
  set (st1 := np_result_strides [T; N; N] st 1).
  (* the bounds: columns, rows, and their sums *)
  assert (∀ i, i < N → (0 ≤ Zsum N (λ j, Z.abs (e t i j)))%Z) as Hrow_nn.
  { intros i Hi. apply Zsum_nonneg. lia. }
  assert (∀ j, j < N → (0 ≤ Zsum N (λ i, Z.abs (e t i j)))%Z) as Hcol_nn.
  { intros j Hj. apply Zsum_nonneg. lia. }
  pose proof (Zsum_swap N N (λ i j, Z.abs (e t i j))) as Habs_swap. cbn beta in Habs_swap.
  assert (∀ i, i < N → (Zsum N (λ j, Z.abs (e t i j)) ≤ B)%Z) as Hrow_b.
  { intros i Hi.
    pose proof (Zsum_term_le N (λ i, Zsum N (λ j, Z.abs (e t i j))) i Hrow_nn Hi).
    cbn beta in *. lia. }
  assert (∀ j, j < N → (Zsum N (λ i, Z.abs (e t i j)) ≤ B)%Z) as Hcol_b.
  { intros j Hj.
    pose proof (Zsum_term_le N (λ j, Zsum N (λ i, Z.abs (e t i j))) j Hcol_nn Hj).
    cbn beta in *. lia. }
  assert (Zsum N (λ i, Z.abs (Zsum N (λ j, e t i j))) ≤ B)%Z as Hrows_b.
  { etrans; [|exact Hb]. apply Zsum_le. intros i Hi. apply Zsum_abs. }
  assert (Zsum N (λ j, Z.abs (Zsum N (λ i, e t i j))) ≤ B)%Z as Hcols_b.
  { rewrite <- Habs_swap in Hb. etrans; [|exact Hb].
    apply Zsum_le. intros j Hj. apply Zsum_abs. }
  (* the column sums and the row sums *)
  assert (∀ j, j < N →
            get (column_sums st v T N) [t; j] = φ (Zsum N (λ i, e t i j))) as Hcol.
  { intros j Hj. apply (sum_of_image_seq φ B Hφ); [|by apply Hcol_b].
    erewrite fmap_seq_ext; [by apply column_sums_sum_of|].
    intros i Hi. cbn beta. symmetry. by apply Hv. }
  assert (∀ i, i < N →
            get (row_sums st v T N) [t; i] = φ (Zsum N (λ j, e t i j))) as Hrow.
  { intros i Hi. apply (sum_of_image_seq φ B Hφ); [|by apply Hrow_b].
    erewrite fmap_seq_ext; [by apply row_sums_sum_of|].
    intros j Hj. cbn beta. symmetry. by apply Hv. }
  (* the three masses *)
  assert (node_mass (transpose (column_sums st v T N)) N t
          = φ (Zsum N (λ j, Zsum N (λ i, e t i j)))) as Hin.
  { unfold node_mass. apply (sum_of_image_seq φ B Hφ); [|exact Hcols_b].
    erewrite fmap_seq_ext; [apply sum_of_py_sum|].
    intros j Hj. cbn beta. rewrite transpose_column_sums_entry by done.
    symmetry. by apply Hcol. }
  assert (node_mass (transpose (row_sums st v T N)) N t
          = φ (Zsum N (λ i, Zsum N (λ j, e t i j)))) as Hout.
  { unfold node_mass. apply (sum_of_image_seq φ B Hφ); [|exact Hrows_b].
    erewrite fmap_seq_ext; [apply sum_of_py_sum|].
    intros i Hi. cbn beta. rewrite transpose_row_sums_entry by done.
    symmetry. by apply Hrow. }
  assert (get (totals st1 (column_sums st v T N) T N) [t]
          = φ (Zsum N (λ j, Zsum N (λ i, e t i j)))) as Htot.
  { unfold totals. rewrite get_fmap_seq by done.
    apply (sum_of_image_seq φ B Hφ); [|exact Hcols_b].
    erewrite fmap_seq_ext; [apply np_add_reduce_sum|].
    intros j Hj. cbn beta. symmetry. by apply Hcol. }
  rewrite Hin, Hout, Htot.
  by rewrite (Zsum_swap N N (λ i j, e t i j)).
Qed.

(** The entries of [tensorF] are the integers [tensorF_integers]. *)
Lemma mass_balance_exact_witness :
  adds_exactly f64_of_Z 64 ∧
  read (store_of tensorF) (Base 1) = Some tensorF ∧ shape tensorF = [2; 2; 2] ∧
  (∀ t i j, t < 2 → i < 2 → j < 2 →
     get tensorF [t; i; j] = f64_of_Z (tensorF_integers t i j)) ∧
  (∀ t, t < 2 →
     (Zsum 2 (λ i, Zsum 2 (λ j, Z.abs (tensorF_integers t i j))) ≤ 64)%Z) ∧
  mass_balance (store_of tensorF) (Base 1) 2 2.
Proof.
  assert (∀ t i j, t < 2 → i < 2 → j < 2 →
            get tensorF [t; i; j] = f64_of_Z (tensorF_integers t i j)) as Hv.
  { intros t i j Ht Hi Hj.
    destruct t as [|[|t]]; [| |lia]; (destruct i as [|[|i]]; [| |lia]);
      (destruct j as [|[|j]]; [| |lia]); reflexivity. }
  assert (∀ t, t < 2 →
            (Zsum 2 (λ i, Zsum 2 (λ j, Z.abs (tensorF_integers t i j))) ≤ 64)%Z) as Hb.
  { intros t Ht. destruct t as [|[|t]]; [| |lia]; vm_compute; discriminate. }
  split; [exact f64_adds_exactly_64|].
  split; [reflexivity|]. split; [reflexivity|].
  split; [exact Hv|]. split; [exact Hb|].
  apply (mass_balance_exact f64_of_Z 64 tensorF_integers
           (store_of tensorF) (Base 1) tensorF 2 2);
    [exact f64_adds_exactly_64 | reflexivity | reflexivity | exact Hv | exact Hb].
Defined.

(** ** C6: the flag [directed] *)

(** C6. The flag [directed] has no influence: with [True] and with [False],
    [NodeEvolution] returns the same arrays and leaves the same store. *)
Theorem NodeEvolution_directed_ignored {R} `{!Additive R} `{!Reduction R}
    (σ : store R) a :
  NodeEvolution a true σ = NodeEvolution a false σ.
Proof. reflexivity. Qed.

(** ** C7: no time step *)

(** C7. On a tensor of shape [0 x N x N], [TotalEvolution] and [Diversity]
    return the empty series and [NodeEvolution] returns two arrays of shape
    [N x 0]; nothing is raised. *)
Theorem empty_time_axis {R} `{!Dtype R} `{!Reduction R} (σ : store R) a v N directed :
  read σ a = Some v → wf v → shape v = [0; N; N] →
  returned (TotalEvolution a σ) = Some (NdArray [0] []) ∧
  returned (Diversity a σ) = Some (NdArray [0] []) ∧
  returned2 (NodeEvolution a directed σ) = Some (NdArray [N; 0] [], NdArray [N; 0] []).
Proof.
  intros Hr Hwf Hs.
  rewrite (TotalEvolution_returns _ _ _ _ _ Hr Hs).
  rewrite (Diversity_returns _ _ _ _ _ Hr Hwf Hs).
  rewrite (NodeEvolution_returns _ _ _ _ _ _ Hr Hs).
  rewrite transpose_column_sums, transpose_row_sums.
  by rewrite !table_0_r.
Qed.

Lemma empty_time_axis_witness :
  read (store_of no_steps) (Base 1) = Some no_steps ∧ wf no_steps ∧
  shape no_steps = [0; 3; 3] ∧
  returned (TotalEvolution (Base 1) (store_of no_steps)) = Some (NdArray [0] []) ∧
  returned (Diversity (Base 1) (store_of no_steps)) = Some (NdArray [0] []) ∧
  returned2 (NodeEvolution (Base 1) false (store_of no_steps))
    = Some (NdArray [3; 0] [], NdArray [3; 0] []).
Proof.
  split; [reflexivity|]. split; [reflexivity|]. split; [reflexivity|].
  apply (empty_time_axis (store_of no_steps) (Base 1) no_steps 3 false); reflexivity.
Defined.

(** ** C8: a slice of mean zero *)

(** C8. If [dyntensor[t].mean()] is a zero, of either sign, [Diversity]
    raises nothing and its entry at [t] is an IEEE-754 special value: a NaN
    or an infinity.  (The mean is the one the call computes, with the
    additions in NumPy's order; the real mean of the entries may be zero
    while the computed one is not.) *)
Theorem Diversity_zero_mean `{!Reduction float64} (σ : store float64) a v T N t s :
  read σ a = Some v → wf v → shape v = [T; N; N] → t < T →
  ndarray_mean (ViewItem a t) σ = Ok (S754_zero s, σ) →
  ∃ out x, returned (Diversity a σ) = Some out ∧
    data out !! t = Some x ∧ (x = S754_nan ∨ ∃ s', x = S754_infinity s').
Proof.
  intros Hr Hwf Hs Ht Hmean.
  assert (mean (tail (strides σ a)) (slice v N t) = S754_zero s) as Hzero.
  { unfold ndarray_mean, load_strides in Hmean.
    rewrite bind_run, (load_run _ _ (slice v N t)) in Hmean.
    - rewrite bind_run in Hmean. cbn [strides] in Hmean.
      unfold mret, M_ret in Hmean. by injection Hmean.
    - cbn [read]. rewrite Hr. cbn [mbind option_bind]. by eapply getitem_slice. }
  do 2 eexists.
  split; [by apply Diversity_returns|]. cbn [data].
  split; [by rewrite lookup_fmap_seq|].
  unfold ratio. rewrite Hzero. apply f64_div_zero.
Qed.

Lemma Diversity_zero_mean_witness :
  read (store_of tensorF) (Base 1) = Some tensorF ∧ wf tensorF ∧
  shape tensorF = [2; 2; 2] ∧ 1 < 2 ∧
  ndarray_mean (ViewItem (Base 1) 1) (store_of tensorF)
    = Ok (S754_zero false, store_of tensorF) ∧
  ∃ out x, returned (Diversity (Base 1) (store_of tensorF)) = Some out ∧
    data out !! 1 = Some x ∧ (x = S754_nan ∨ ∃ s', x = S754_infinity s').
Proof.
  split; [reflexivity|]. split; [reflexivity|]. split; [reflexivity|].
  split; [lia|]. split; [reflexivity|].
  apply (Diversity_zero_mean (store_of tensorF) (Base 1) tensorF 2 2 1 false);
    [reflexivity | reflexivity | reflexivity | lia | reflexivity].
Defined.

(** A slice of mean zero whose entries differ: the ratio is [+inf]. *)
Example Diversity_infinite :
  returned (Diversity (Base 1)
              (store_of (NdArray [1; 2; 2] (f64_of_Z <$> [1; -1; 1; -1]%Z)))) =
    Some (NdArray [1] [S754_infinity false]).
Proof. vm_compute. reflexivity. Qed.

(** The entries [2^53, 1, -2^53, -1] add up to zero, but not in [float64]:
    added from first to last, the [1] is rounded away, the mean computed is
    [-0.25], and the ratio is an ordinary number. *)
Example Diversity_rounded_mean :
  returned (Diversity (Base 1)
              (store_of (NdArray [1; 2; 2]
                 (f64_of_Z <$> [9007199254740992; 1; -9007199254740992; -1]%Z)))) =
    Some (NdArray [1] [S754_finite true 6369051672525773 2]).
Proof. vm_compute. reflexivity. Qed.

(** ** C9: the tensor is only read *)

(** C9. On a tensor of shape [T x N x N], each of the three functions leaves
    every array that was alive before the call, the tensor among them, with
    the shape and the entries it had; what is returned lives in buffers
    allocated by the call, and writing through it does not reach the
    tensor. *)
Theorem tensor_only_read {R} `{!Dtype R} `{!Reduction R}
    (σ : store R) a v T N directed :
  read σ a = Some v → wf v → shape v = [T; N; N] →
  (∃ res σ', TotalEvolution a σ = Ok (res, σ') ∧ reads_only σ σ' a res) ∧
  (∃ ins outs σ', NodeEvolution a directed σ = Ok ((ins, outs), σ') ∧
     reads_only σ σ' a ins ∧ reads_only σ σ' a outs) ∧
  (∃ res σ', Diversity a σ = Ok (res, σ') ∧ reads_only σ σ' a res).
Proof.
  intros Hr Hwf Hs. split_and!.
  - do 2 eexists. split; [by apply TotalEvolution_run|].
    apply (reads_only_intro _ _ _ _ v Hr).
    + intros l Hl. by apply insert_fresh2_old.
    + apply fresh2_not_old.
  - do 3 eexists. split; [by apply NodeEvolution_run|].
    split; apply (reads_only_intro _ _ _ _ v Hr);
      try (intros l Hl; by apply insert_fresh2_old).
    + apply is_fresh.
    + apply fresh2_not_old.
  - do 2 eexists. split; [by apply Diversity_run|].
    apply (reads_only_intro _ _ _ _ v Hr).
    + intros l Hl. by apply insert_fresh_old.
    + apply is_fresh.
Qed.

Lemma tensor_only_read_witness :
  read (store_of tensorF) (Base 1) = Some tensorF ∧ wf tensorF ∧
  shape tensorF = [2; 2; 2] ∧
  (∃ res σ', TotalEvolution (Base 1) (store_of tensorF) = Ok (res, σ') ∧
     reads_only (store_of tensorF) σ' (Base 1) res) ∧
  (∃ ins outs σ', NodeEvolution (Base 1) false (store_of tensorF) = Ok ((ins, outs), σ') ∧
     reads_only (store_of tensorF) σ' (Base 1) ins ∧
     reads_only (store_of tensorF) σ' (Base 1) outs) ∧
  (∃ res σ', Diversity (Base 1) (store_of tensorF) = Ok (res, σ') ∧
     reads_only (store_of tensorF) σ' (Base 1) res).
Proof.
  split; [reflexivity|]. split; [reflexivity|]. split; [reflexivity|].
  apply (tensor_only_read (store_of tensorF) (Base 1) tensorF 2 2 false); reflexivity.
Defined.

(** Writing through a view does reach its base: had [NodeEvolution] returned
    views of the tensor, the caller could have changed it. *)
Example view_write_reaches_base :
  (σ' ← writeback (store_of (NdArray [2; 2] (i64 <$> [1; 2; 3; 4]%Z))) (ViewT (Base 1))
          (NdArray [2; 2] (i64 <$> [0; 0; 0; 0]%Z));
   read σ' (Base 1))
    = Some (NdArray [2; 2] (i64 <$> [0; 0; 0; 0]%Z)).
Proof. vm_compute. reflexivity. Qed.

(** ** C10: no node *)

(** C10. On a tensor of shape [T x 0 x 0], [NodeEvolution] raises nothing
    and returns two empty arrays of shape [0 x T]. *)
Theorem NodeEvolution_no_nodes {R} `{!Additive R} `{!Reduction R}
    (σ : store R) a v T directed :
  read σ a = Some v → shape v = [T; 0; 0] →
  returned2 (NodeEvolution a directed σ) = Some (NdArray [0; T] [], NdArray [0; T] []).
Proof.
  intros Hr Hs. rewrite (NodeEvolution_returns _ _ _ _ _ _ Hr Hs).
  by rewrite transpose_column_sums, transpose_row_sums.
Qed.

Lemma NodeEvolution_no_nodes_witness :
  read (store_of no_nodes) (Base 1) = Some no_nodes ∧ shape no_nodes = [3; 0; 0] ∧
  returned2 (NodeEvolution (Base 1) false (store_of no_nodes))
    = Some (NdArray [0; 3] [], NdArray [0; 3] []).
Proof.
  split; [reflexivity|]. split; [reflexivity|].
  apply (NodeEvolution_no_nodes (store_of no_nodes) (Base 1) no_nodes 3 false);
    reflexivity.
Defined.

(** * Further properties of the three functions *)

(** ** The outcome of a call, by shape *)

(** On a live array each function has one of three outcomes, decided by the
    shape alone: the rank assertion fails (whatever the dimensions are), the
    squareness assertion fails, or the call returns.  No other exception is
    raised: the axes summed over exist and every [dyntensor[t]] is in
    range. *)
Theorem outcome_by_shape {R} `{!Dtype R} `{!Reduction R} (σ : store R) a v directed :
  read σ a = Some v → wf v →
  (length (shape v) ≠ 3 →
     TotalEvolution a σ = Raise (AssertionError msg_rank) ∧
     NodeEvolution a directed σ = Raise (AssertionError msg_rank) ∧
     Diversity a σ = Raise (AssertionError msg_rank)) ∧
  (∀ T N1 N2, shape v = [T; N1; N2] → N1 ≠ N2 →
     TotalEvolution a σ = Raise (AssertionError msg_square) ∧
     NodeEvolution a directed σ = Raise (AssertionError msg_square) ∧
     Diversity a σ = Raise (AssertionError msg_square)) ∧
  (∀ T N, shape v = [T; N; N] →
     (∃ x, TotalEvolution a σ = Ok x) ∧
     (∃ x, NodeEvolution a directed σ = Ok x) ∧
     (∃ x, Diversity a σ = Ok x)).
Proof.
  intros Hr Hwf. split_and!.
  - intros Hlen. apply security_checks_raise.
    rewrite (security_checks_run _ _ _ Hr).
    by destruct (shape v) as [|T [|N1 [|N2 [|? ?]]]].
  - intros T N1 N2 Hs Hne. apply security_checks_raise.
    rewrite (security_checks_run _ _ _ Hr), Hs.
    by rewrite bool_decide_eq_false_2.
  - intros T N Hs. by eapply aligned_no_raise.
Qed.

Lemma outcome_by_shape_witness :
  read (store_of matrixF) (Base 1) = Some matrixF ∧ wf matrixF ∧
  length (shape matrixF) ≠ 3 ∧
  TotalEvolution (Base 1) (store_of matrixF) = Raise (AssertionError msg_rank) ∧
  NodeEvolution (Base 1) true (store_of matrixF) = Raise (AssertionError msg_rank) ∧
  Diversity (Base 1) (store_of matrixF) = Raise (AssertionError msg_rank).
Proof.
  split; [reflexivity|]. split; [reflexivity|].
  assert (length (shape matrixF) ≠ 3) as Hlen by (simpl; lia).
  split; [exact Hlen|].
  apply (outcome_by_shape (store_of matrixF) (Base 1) matrixF true);
    [reflexivity | reflexivity | exact Hlen].
Defined.

(** ** Inputs and outputs *)

(** Transposing every slice of the tensor exchanges the two arrays
    [NodeEvolution] returns: the inputs of one are the outputs of the
    other.  (Exact arithmetic: the two reductions run along different
    axes.) *)
Theorem NodeEvolution_transposed_slices {R} `{!Additive R} `{!ExactSum R}
    `{!Reduction R} (σ σ' : store R) a a' v v' T N directed directed' :
  read σ a = Some v → shape v = [T; N; N] →
  read σ' a' = Some v' → shape v' = [T; N; N] →
  (∀ t i j, t < T → i < N → j < N → get v' [t; i; j] = get v [t; j; i]) →
  ∃ ins outs,
    returned2 (NodeEvolution a directed σ) = Some (ins, outs) ∧
    returned2 (NodeEvolution a' directed' σ') = Some (outs, ins).
Proof.
  intros Hr Hs Hr' Hs' Heq. do 2 eexists.
  split; [by apply NodeEvolution_returns|].
  rewrite (NodeEvolution_returns _ _ _ _ _ _ Hr' Hs').
  rewrite !transpose_column_sums, !transpose_row_sums.
  do 2 f_equal; f_equal; apply table_ext; intros i t Hi Ht;
    rewrite !np_add_reduce_exact; f_equal;
    apply fmap_seq_ext; intros k Hk; by apply Heq.
Qed.

Lemma NodeEvolution_transposed_slices_witness :
  read (store_of stepI) (Base 1) = Some stepI ∧ shape stepI = [1; 2; 2] ∧
  read (store_of stepI_T) (Base 1) = Some stepI_T ∧ shape stepI_T = [1; 2; 2] ∧
  (∀ t i j, t < 1 → i < 2 → j < 2 → get stepI_T [t; i; j] = get stepI [t; j; i]) ∧
  ∃ ins outs,
    returned2 (NodeEvolution (Base 1) false (store_of stepI)) = Some (ins, outs) ∧
    returned2 (NodeEvolution (Base 1) false (store_of stepI_T)) = Some (outs, ins).
Proof.
  assert (∀ t i j, t < 1 → i < 2 → j < 2 →
            get stepI_T [t; i; j] = get stepI [t; j; i]) as Heq.
  { intros t i j Ht Hi Hj. destruct t as [|t]; [|lia].
    destruct i as [|[|i]]; [| |lia]; (destruct j as [|[|j]]; [| |lia]); reflexivity. }
  split; [reflexivity|]. split; [reflexivity|].
  split; [reflexivity|]. split; [reflexivity|]. split; [exact Heq|].
  apply (NodeEvolution_transposed_slices (store_of stepI) (store_of stepI_T)
           (Base 1) (Base 1) stepI stepI_T 1 2 false false);
    [reflexivity | reflexivity | reflexivity | reflexivity | exact Heq].
Defined.

(** On a tensor whose slices are symmetric matrices, an undirected network,
    the inputs and the outputs [NodeEvolution] returns are the same
    array.  (Exact arithmetic.) *)
Theorem NodeEvolution_symmetric {R} `{!Additive R} `{!ExactSum R} `{!Reduction R}
    (σ : store R) a v T N directed :
  read σ a = Some v → shape v = [T; N; N] →
  (∀ t i j, t < T → i < N → j < N → get v [t; i; j] = get v [t; j; i]) →
  ∃ ins, returned2 (NodeEvolution a directed σ) = Some (ins, ins).
Proof.
  intros Hr Hs Hsym. eexists.
  rewrite (NodeEvolution_returns _ _ _ _ _ _ Hr Hs).
  rewrite transpose_column_sums, transpose_row_sums.
  do 2 f_equal. f_equal. apply table_ext. intros i t Hi Ht.
  rewrite !np_add_reduce_exact. f_equal.
  apply fmap_seq_ext. intros k Hk. by apply Hsym.
Qed.

Lemma NodeEvolution_symmetric_witness :
  read (store_of symmetricI) (Base 1) = Some symmetricI ∧
  shape symmetricI = [1; 2; 2] ∧
  (∀ t i j, t < 1 → i < 2 → j < 2 →
     get symmetricI [t; i; j] = get symmetricI [t; j; i]) ∧
  ∃ ins, returned2 (NodeEvolution (Base 1) false (store_of symmetricI)) = Some (ins, ins).
Proof.
  assert (∀ t i j, t < 1 → i < 2 → j < 2 →
            get symmetricI [t; i; j] = get symmetricI [t; j; i]) as Hsym.
  { intros t i j Ht Hi Hj. destruct t as [|t]; [|lia].
    destruct i as [|[|i]]; [| |lia]; (destruct j as [|[|j]]; [| |lia]); reflexivity. }
  split; [reflexivity|]. split; [reflexivity|]. split; [exact Hsym|].
  apply (NodeEvolution_symmetric (store_of symmetricI) (Base 1) symmetricI 1 2 false);
    [reflexivity | reflexivity | exact Hsym].
Defined.

(** [TotalEvolution] is the inputs [NodeEvolution] returns, transposed back
    and summed along the nodes: on the array of inputs a call has returned,
    [ins.T.sum(axis=1)] computes what [TotalEvolution] returns on the
    tensor.  Both functions start from the same [dyntensor.sum(axis=1)],
    and [ins.T] has its values and its layout, so this holds in any
    arithmetic, rounding included. *)
Theorem TotalEvolution_from_inputs {R} `{!Additive R} `{!Reduction R}
    (σ : store R) a v T N directed :
  read σ a = Some v → shape v = [T; N; N] →
  ∃ ins outs σ' tot,
    NodeEvolution a directed σ = Ok ((ins, outs), σ') ∧
    returned (TotalEvolution a σ) = Some tot ∧
    returned ((back ← ndarray_T ins; ndarray_sum back 1) σ') = Some tot.
Proof.
  intros Hr Hs. do 4 eexists.
  split; [by apply NodeEvolution_run|].
  split; [by apply TotalEvolution_returns|].
  set (st1 := np_result_strides [T; N; N] (strides σ a) 1).
  set (w1 := column_sums (strides σ a) v T N).
  set (σ1 := <[fresh (dom σ):=Object w1 st1]> σ).
  set (σ2 := <[fresh (dom σ1):=_]> σ1).
  assert (σ2 !! fresh (dom σ) = Some (Object w1 st1)) as Hl.
  { unfold σ2. rewrite lookup_insert_ne by apply fresh_insert_ne.
    apply lookup_insert_eq. }
  unfold ndarray_T. rewrite bind_run. cbn [mret M_ret].
  rewrite (ndarray_sum_run σ2 _ 1 w1 (totals st1 w1 T N)).
  - cbn [returned read]. by rewrite lookup_insert_eq.
  - cbn [read]. rewrite Hl. cbn [fmap option_fmap option_map obj_value].
    f_equal. apply transpose_transpose_table.
  - cbn [strides]. rewrite Hl. cbn [from_option obj_strides].
    rewrite reverse_involutive. by apply sum_axis1_rank2.
Qed.

Lemma TotalEvolution_from_inputs_witness :
  read (store_of tensorC) (Base 1) = Some tensorC ∧ shape tensorC = [1; 2; 2] ∧
  ∃ ins outs σ' tot,
    NodeEvolution (Base 1) false (store_of tensorC) = Ok ((ins, outs), σ') ∧
    returned (TotalEvolution (Base 1) (store_of tensorC)) = Some tot ∧
    returned ((back ← ndarray_T ins; ndarray_sum back 1) σ') = Some tot.
Proof.
  split; [reflexivity|]. split; [reflexivity|].
  apply (TotalEvolution_from_inputs (store_of tensorC) (Base 1) tensorC 1 2 false);
    reflexivity.
Defined.

(** The two arrays [NodeEvolution] returns do not share storage: a write
    through one of them leaves the other as it was. *)
Theorem NodeEvolution_results_apart {R} `{!Additive R} `{!Reduction R}
    (σ : store R) a v T N directed :
  read σ a = Some v → shape v = [T; N; N] →
  ∃ ins outs σ', NodeEvolution a directed σ = Ok ((ins, outs), σ') ∧
    base ins ≠ base outs ∧
    (∀ w σ'', writeback σ' ins w = Some σ'' → read σ'' outs = read σ' outs) ∧
    (∀ w σ'', writeback σ' outs w = Some σ'' → read σ'' ins = read σ' ins).
Proof.
  intros Hr Hs. do 3 eexists. split; [by apply NodeEvolution_run|].
  cbn [base].
  match goal with
  | |- fresh (dom σ) ≠ fresh (dom (<[fresh (dom σ):=?o]> σ)) ∧ _ =>
      assert (fresh (dom σ) ≠ fresh (dom (<[fresh (dom σ):=o]> σ)))
        as Hne by (intros Heq; by eapply fresh_insert_ne)
  end.
  split; [done|]. split; intros w σ'' Hw; apply read_agree;
    by rewrite (writeback_frame _ _ _ _ _ Hw).
Qed.

Lemma NodeEvolution_results_apart_witness :
  read (store_of tensorI) (Base 1) = Some tensorI ∧ shape tensorI = [2; 2; 2] ∧
  ∃ ins outs σ', NodeEvolution (Base 1) false (store_of tensorI) = Ok ((ins, outs), σ') ∧
    base ins ≠ base outs ∧
    (∀ w σ'', writeback σ' ins w = Some σ'' → read σ'' outs = read σ' outs) ∧
    (∀ w σ'', writeback σ' outs w = Some σ'' → read σ'' ins = read σ' ins).
Proof.
  split; [reflexivity|]. split; [reflexivity|].
  apply (NodeEvolution_results_apart (store_of tensorI) (Base 1) tensorI 2 2 false);
    reflexivity.
Defined.

(** ** A network without nodes *)

(** On a tensor of shape [T x 0 x 0], [TotalEvolution] returns [T] zeros:
    the sum of no entries. *)
Theorem TotalEvolution_no_nodes {R} `{!Additive R} `{!Reduction R}
    (σ : store R) a v T :
  read σ a = Some v → shape v = [T; 0; 0] →
  returned (TotalEvolution a σ) = Some (NdArray [T] (replicate T sc_zero)).
Proof.
  intros Hr Hs. rewrite (TotalEvolution_returns _ _ _ _ _ Hr Hs).
  unfold totals. cbn [seq fmap list_fmap].
  rewrite <- fmap_const_seq. do 2 f_equal.
  apply fmap_seq_ext. intros t _. apply np_add_reduce_nil.
Qed.

Lemma TotalEvolution_no_nodes_witness :
  read (store_of no_nodes) (Base 1) = Some no_nodes ∧ shape no_nodes = [3; 0; 0] ∧
  returned (TotalEvolution (Base 1) (store_of no_nodes))
    = Some (NdArray [3] (replicate 3 sc_zero)).
Proof.
  split; [reflexivity|]. split; [reflexivity|].
  apply (TotalEvolution_no_nodes (store_of no_nodes) (Base 1) no_nodes 3); reflexivity.
Defined.

(** On a [float64] tensor of shape [T x 0 x 0], [Diversity] raises nothing
    and returns [T] NaNs: the mean and the deviation of no entries are both
    [0 / 0]. *)
Theorem Diversity_no_nodes `{!Reduction float64} (σ : store float64) a v T :
  read σ a = Some v → wf v → shape v = [T; 0; 0] →
  returned (Diversity a σ) = Some (NdArray [T] (replicate T S754_nan)).
Proof.
  intros Hr Hwf Hs. rewrite (Diversity_returns _ _ _ _ _ Hr Hwf Hs).
  rewrite <- fmap_const_seq. do 2 f_equal.
  apply fmap_seq_ext. intros t _.
  unfold ratio, std, var, mean, slice. cbn [data shape table seq mbind list_bind fmap list_fmap].
  by rewrite !np_add_reduce_nil.
Qed.

Lemma Diversity_no_nodes_witness :
  read (store_of no_nodesF) (Base 1) = Some no_nodesF ∧ wf no_nodesF ∧
  shape no_nodesF = [3; 0; 0] ∧
  returned (Diversity (Base 1) (store_of no_nodesF))
    = Some (NdArray [3] (replicate 3 S754_nan)).
Proof.
  split; [reflexivity|]. split; [reflexivity|]. split; [reflexivity|].
  apply (Diversity_no_nodes (store_of no_nodesF) (Base 1) no_nodesF 3); reflexivity.
Defined.

(** ** Calls do not interfere *)

(** After any of the three functions has run on a tensor, each of them
    returns on that tensor what it would have returned before: no call
    leaves anything behind that a later call sees. *)
Theorem calls_do_not_interfere {R} `{!Dtype R} `{!Reduction R}
    (σ σ' : store R) a v T N directed :
  read σ a = Some v → wf v → shape v = [T; N; N] →
  (∃ res, TotalEvolution a σ = Ok (res, σ')) ∨
  (∃ res d, NodeEvolution a d σ = Ok (res, σ')) ∨
  (∃ res, Diversity a σ = Ok (res, σ')) →
  returned (TotalEvolution a σ') = returned (TotalEvolution a σ) ∧
  returned2 (NodeEvolution a directed σ') = returned2 (NodeEvolution a directed σ) ∧
  returned (Diversity a σ') = returned (Diversity a σ).
Proof.
  intros Hr Hwf Hs Hcall.
  assert (read σ' a = Some v ∧ strides σ' a = strides σ a) as [Hr' Hst].
  { destruct Hcall as [[res H]|[(res & d & H)|[res H]]].
    - rewrite (TotalEvolution_run _ _ _ _ _ Hr Hs) in H. injection H as _ <-.
      split; [by do 2 apply read_alloc|].
      rewrite (strides_alloc _ _ v) by by apply read_alloc.
      by apply (strides_alloc _ _ v).
    - rewrite (NodeEvolution_run _ _ _ _ _ _ Hr Hs) in H. injection H as _ <-.
      split; [by do 2 apply read_alloc|].
      rewrite (strides_alloc _ _ v) by by apply read_alloc.
      by apply (strides_alloc _ _ v).
    - rewrite (Diversity_run _ _ _ _ _ Hr Hwf Hs) in H. injection H as _ <-.
      split; [by apply read_alloc|by apply (strides_alloc _ _ v)]. }
  by apply (returned_by_value σ σ' a v).
Qed.

Lemma calls_do_not_interfere_witness :
  read (store_of tensorF) (Base 1) = Some tensorF ∧ wf tensorF ∧
  shape tensorF = [2; 2; 2] ∧
  ∃ res σ', Diversity (Base 1) (store_of tensorF) = Ok (res, σ') ∧
    returned (TotalEvolution (Base 1) σ')
      = returned (TotalEvolution (Base 1) (store_of tensorF)) ∧
    returned2 (NodeEvolution (Base 1) false σ')
      = returned2 (NodeEvolution (Base 1) false (store_of tensorF)) ∧
    returned (Diversity (Base 1) σ')
      = returned (Diversity (Base 1) (store_of tensorF)).
Proof.
  split; [reflexivity|]. split; [reflexivity|]. split; [reflexivity|].
  do 2 eexists. split; [vm_compute; reflexivity|].
  apply (calls_do_not_interfere (store_of tensorF) _ (Base 1) tensorF 2 2 false);
    [reflexivity | reflexivity | reflexivity
    | right; right; eexists; vm_compute; reflexivity].
Defined.

(** ** The masses in exact arithmetic *)

(** Where addition is associative and commutative with unit zero, as it is
    for [int64] entries (modulo [2^64]), the three masses agree on every
    tensor of shape [T x N x N] and at every time: the sum over the nodes of
    the inputs, the sum over the nodes of the outputs, and the entry of
    [TotalEvolution]. *)
Theorem mass_balance_exact_arithmetic {R} `{!Additive R} `{!ExactSum R}
    `{!Reduction R} (σ : store R) a v T N :
  read σ a = Some v → shape v = [T; N; N] →
  mass_balance σ a T N.
Proof.
  intros Hr Hs. do 3 eexists.
  split; [by apply NodeEvolution_returns|].
  split; [by apply TotalEvolution_returns|].
  intros t Ht. unfold node_mass.
  set (st := strides σ a).
  assert (py_sum ((λ i, get (transpose (column_sums st v T N)) [i; t]) <$> seq 0 N)
          = py_sum (data (slice v N t))) as ->.
  { apply sum_of_exact. unfold slice. cbn [data].
    apply (sum_of_columns N N (λ i j, get v [t; i; j])
             (λ j, get (transpose (column_sums st v T N)) [j; t]));
      [|apply sum_of_py_sum].
    intros j Hj. rewrite transpose_column_sums_entry by done.
    by apply column_sums_sum_of. }
  assert (py_sum ((λ i, get (transpose (row_sums st v T N)) [i; t]) <$> seq 0 N)
          = py_sum (data (slice v N t))) as ->.
  { apply sum_of_exact. unfold slice. cbn [data].
    apply (sum_of_rows N N (λ i j, get v [t; i; j])
             (λ i, get (transpose (row_sums st v T N)) [i; t]));
      [|apply sum_of_py_sum].
    intros i Hi. rewrite transpose_row_sums_entry by done.
    by apply row_sums_sum_of. }
  split; [done|]. symmetry. by apply sum_of_exact, totals_sum_of.
Qed.

Lemma mass_balance_exact_arithmetic_witness :
  read (store_of tensorI) (Base 1) = Some tensorI ∧ shape tensorI = [2; 2; 2] ∧
  mass_balance (store_of tensorI) (Base 1) 2 2.
Proof.
  split; [reflexivity|]. split; [reflexivity|].
  apply (mass_balance_exact_arithmetic (store_of tensorI) (Base 1) tensorI 2 2);
    reflexivity.
Defined.

(** ** Each time step is reduced on its own *)

(** In exact arithmetic the entry of [TotalEvolution] at a time step is
    determined by the entries of the slice at that step: two tensors, of any
    lengths and layouts, that hold the same slice at [t] and at [t'] get the
    same total there.  (With [float64] entries the layout of the tensor
    decides the order of the additions, and the totals may differ in the
    last bits.) *)
Theorem TotalEvolution_slice_local {R} `{!Additive R} `{!ExactSum R} `{!Reduction R}
    (σ σ' : store R) a a' v v' T T' N t t' :
  read σ a = Some v → shape v = [T; N; N] → t < T →
  read σ' a' = Some v' → shape v' = [T'; N; N] → t' < T' →
  (∀ i j, i < N → j < N → get v [t; i; j] = get v' [t'; i; j]) →
  ∃ out out' x,
    returned (TotalEvolution a σ) = Some out ∧
    returned (TotalEvolution a' σ') = Some out' ∧
    data out !! t = Some x ∧ data out' !! t' = Some x.
Proof.
  intros Hr Hs Ht Hr' Hs' Ht' Heq. do 3 eexists.
  split; [by apply TotalEvolution_returns|].
  split; [by apply TotalEvolution_returns|].
  rewrite !totals_lookup by done. split; [done|]. f_equal.
  unfold totals. rewrite !get_fmap_seq by done.
  rewrite !np_add_reduce_exact. f_equal.
  apply fmap_seq_ext. intros j Hj. unfold column_sums.
  rewrite !get_table by done. rewrite !np_add_reduce_exact. f_equal.
  apply fmap_seq_ext. intros i Hi. symmetry. by apply Heq.
Qed.

Lemma TotalEvolution_slice_local_witness :
  read (store_of tensorI) (Base 1) = Some tensorI ∧ shape tensorI = [2; 2; 2] ∧ 0 < 2 ∧
  read (store_of stepI) (Base 1) = Some stepI ∧ shape stepI = [1; 2; 2] ∧ 0 < 1 ∧
  (∀ i j, i < 2 → j < 2 → get tensorI [0; i; j] = get stepI [0; i; j]) ∧
  ∃ out out' x,
    returned (TotalEvolution (Base 1) (store_of tensorI)) = Some out ∧
    returned (TotalEvolution (Base 1) (store_of stepI)) = Some out' ∧
    data out !! 0 = Some x ∧ data out' !! 0 = Some x.
Proof.
  assert (∀ i j, i < 2 → j < 2 → get tensorI [0; i; j] = get stepI [0; i; j]) as Heq.
  { intros i j Hi Hj.
    destruct i as [|[|i]]; [| |lia]; (destruct j as [|[|j]]; [| |lia]); reflexivity. }
  split; [reflexivity|]. split; [reflexivity|]. split; [lia|].
  split; [reflexivity|]. split; [reflexivity|]. split; [lia|]. split; [exact Heq|].
  apply (TotalEvolution_slice_local (store_of tensorI) (store_of stepI)
           (Base 1) (Base 1) tensorI stepI 2 1 2 0 0);
    [reflexivity | reflexivity | lia | reflexivity | reflexivity | lia | exact Heq].
Defined.

(** The same for [NodeEvolution]: in exact arithmetic column [t] of the
    inputs and of the outputs is determined by the slice at [t]. *)
Theorem NodeEvolution_slice_local {R} `{!Additive R} `{!ExactSum R} `{!Reduction R}
    (σ σ' : store R) a a' v v' T T' N t t' directed directed' :
  read σ a = Some v → shape v = [T; N; N] → t < T →
  read σ' a' = Some v' → shape v' = [T'; N; N] → t' < T' →
  (∀ i j, i < N → j < N → get v [t; i; j] = get v' [t'; i; j]) →
  ∃ ins outs ins' outs',
    returned2 (NodeEvolution a directed σ) = Some (ins, outs) ∧
    returned2 (NodeEvolution a' directed' σ') = Some (ins', outs') ∧
    ∀ i, i < N →
      get ins [i; t] = get ins' [i; t'] ∧ get outs [i; t] = get outs' [i; t'].
Proof.
  intros Hr Hs Ht Hr' Hs' Ht' Heq. do 4 eexists.
  split; [by apply NodeEvolution_returns|].
  split; [by apply NodeEvolution_returns|].
  intros i Hi. rewrite !transpose_column_sums, !transpose_row_sums.
  rewrite !get_table by done. rewrite !np_add_reduce_exact.
  split; f_equal; apply fmap_seq_ext; intros k Hk; by apply Heq.
Qed.

Lemma NodeEvolution_slice_local_witness :
  read (store_of tensorI) (Base 1) = Some tensorI ∧ shape tensorI = [2; 2; 2] ∧ 0 < 2 ∧
  read (store_of stepI) (Base 1) = Some stepI ∧ shape stepI = [1; 2; 2] ∧ 0 < 1 ∧
  (∀ i j, i < 2 → j < 2 → get tensorI [0; i; j] = get stepI [0; i; j]) ∧
  ∃ ins outs ins' outs',
    returned2 (NodeEvolution (Base 1) false (store_of tensorI)) = Some (ins, outs) ∧
    returned2 (NodeEvolution (Base 1) true (store_of stepI)) = Some (ins', outs') ∧
    ∀ i, i < 2 →
      get ins [i; 0] = get ins' [i; 0] ∧ get outs [i; 0] = get outs' [i; 0].
Proof.
  assert (∀ i j, i < 2 → j < 2 → get tensorI [0; i; j] = get stepI [0; i; j]) as Heq.
  { intros i j Hi Hj.
    destruct i as [|[|i]]; [| |lia]; (destruct j as [|[|j]]; [| |lia]); reflexivity. }
  split; [reflexivity|]. split; [reflexivity|]. split; [lia|].
  split; [reflexivity|]. split; [reflexivity|]. split; [lia|]. split; [exact Heq|].
  apply (NodeEvolution_slice_local (store_of tensorI) (store_of stepI)
           (Base 1) (Base 1) tensorI stepI 2 1 2 0 0 false true);
    [reflexivity | reflexivity | lia | reflexivity | reflexivity | lia | exact Heq].
Defined.
